(** * Cosmos Connect: the rate limiter and the bounded priority cache

    A shallow embedding of [RateLimiter] (the API service layer) and of
    [AdvancedCacheManager] (js/caching.js), with the properties of the
    specification stated against the embedded code.

    Conventions of the embedding:
    - JavaScript numbers that the code uses as timestamps, byte counts,
      priorities and quotas are integers ([Z]); [0] is the only falsy one.
    - JavaScript strings are [string]; the empty string is falsy.
    - [Date.now()] is an input of the model: the limiter operations take
      the reading as an argument, the cache reads a clock kept in its world.
    - [localStorage] is an ordered association list from keys to stored
      values; [localStorage.key(i)] is the [i]-th pair. *)

From Stdlib Require Import ZArith List String Ascii Bool Lia Permutation Sorted.
Import ListNotations.
Local Open Scope string_scope.
Local Open Scope list_scope.
Local Open Scope Z_scope.

(** ** JavaScript string helpers *)

(** [key.startsWith(p)] *)
Definition startsWith (p s : string) : bool := String.prefix p s.

(** [s.includes(p)]: [p] occurs in [s] at some offset. *)
Fixpoint includes (p s : string) : bool :=
  startsWith p s ||
  match s with
  | EmptyString => false
  | String _ s' => includes p s'
  end.

(** [s.substring(n)] *)
Fixpoint drop (n : nat) (s : string) : string :=
  match n, s with
  | O, _ => s
  | S n', String _ s' => drop n' s'
  | S _, EmptyString => EmptyString
  end.

(** [key.replace(p, '')] for a [key] that starts with [p]: the first
    occurrence of [p] is the one at offset 0, so the call removes it. *)
Definition replace_prefix (p key : string) : string :=
  if startsWith p key then drop (String.length p) key else key.

(** Truthiness of an optional number ([options.ttl || d]). *)
Definition truthyZ (o : option Z) : option Z :=
  match o with
  | Some 0 => None
  | Some z => Some z
  | None => None
  end.

(** Truthiness of an optional string ([options.version || d]). *)
Definition truthyS (o : option string) : option string :=
  match o with
  | Some EmptyString => None
  | Some s => Some s
  | None => None
  end.

(** [a || d] on an optional number. *)
Definition orZ (o : option Z) (d : Z) : Z :=
  match truthyZ o with Some z => z | None => d end.

(** ** The rate limiter *)

Module RateLimiter.

(** The slot ['rate_limiter_requests'] of [localStorage], as
    [StorageUtils] sees it: the array saved there (if one parses) and
    whether a write of a given array is accepted or throws (quota, storage
    disabled). *)
Record Slot := {
  saved : option (list Z);
  accepts : list Z -> bool
}.

(** [StorageUtils.set(key, value)]: a failed write is caught and reported
    as [false]. *)
Definition StorageUtils_set (v : list Z) (sl : Slot) : bool * Slot :=
  if accepts sl v
  then (true, {| saved := Some v; accepts := accepts sl |})
  else (false, sl).

(** [StorageUtils.get(key, defaultValue)] *)
Definition StorageUtils_get (d : list Z) (sl : Slot) : list Z :=
  match saved sl with
  | Some v => v
  | None => d
  end.

Record t := {
  maxRequests : Z;
  windowMs : Z;
  requests : list Z
}.

(** The [config] argument of the constructor. *)
Record Config := {
  cfg_requests : Z;
  cfg_window : Z
}.

Definition with_requests (s : t) (r : list Z) : t :=
  {| maxRequests := maxRequests s; windowMs := windowMs s; requests := r |}.

(** [cleanOldRequests()] *)
Definition cleanOldRequests (now : Z) (s : t) (sl : Slot) : t * Slot :=
  let kept := filter (fun timestamp => now - timestamp <? windowMs s) (requests s) in
  (with_requests s kept, snd (StorageUtils_set kept sl)).

(** [constructor(config)] *)
Definition new (config : Config) (now : Z) (sl : Slot) : t * Slot :=
  cleanOldRequests now
    {| maxRequests := cfg_requests config;
       windowMs := cfg_window config;
       requests := StorageUtils_get [] sl |} sl.

(** [canMakeRequest()] *)
Definition canMakeRequest (now : Z) (s : t) (sl : Slot) : bool * (t * Slot) :=
  let r := cleanOldRequests now s sl in
  (Z.of_nat (List.length (requests (fst r))) <? maxRequests (fst r), r).

(** [recordRequest()] *)
Definition recordRequest (now : Z) (s : t) (sl : Slot) : t * Slot :=
  let pushed := requests s ++ [now] in
  (with_requests s pushed, snd (StorageUtils_set pushed sl)).

(** [Math.min(...xs)] on a non-empty array. *)
Definition Math_min (xs : list Z) : Z :=
  match xs with
  | [] => 0
  | x :: rest => fold_left Z.min rest x
  end.

(** [getTimeUntilReset()] *)
Definition getTimeUntilReset (now : Z) (s : t) : Z :=
  match requests s with
  | [] => 0
  | _ :: _ =>
      let oldestRequest := Math_min (requests s) in
      let timeUntilReset := windowMs s - (now - oldestRequest) in
      Z.max 0 timeUntilReset
  end.

(** [getRemainingRequests()] *)
Definition getRemainingRequests (now : Z) (s : t) (sl : Slot) : Z * (t * Slot) :=
  let r := cleanOldRequests now s sl in
  (Z.max 0 (maxRequests (fst r) - Z.of_nat (List.length (requests (fst r)))), r).

(** What the specification describes for [getTimeUntilReset]: prune first,
    then answer from the oldest timestamp that is left. *)
Definition getTimeUntilReset_pruning (now : Z) (s : t) (sl : Slot) : Z * (t * Slot) :=
  let r := cleanOldRequests now s sl in
  (getTimeUntilReset now (fst r), r).

(** A slot that holds nothing yet and accepts every write. *)
Definition empty_slot : Slot := {| saved := None; accepts := fun _ => true |}.

(** The object [BaseAPIService.getRateLimitInfo()] returns. *)
Record RateLimitInfo := {
  remaining : Z;
  resetTime : Z
}.

(** [getRateLimitInfo()] on the limiter of the service: the object
    literal calls [getRemainingRequests()] first, then
    [getTimeUntilReset()]; [now1] and [now2] are the two clock readings. *)
Definition getRateLimitInfo (now1 now2 : Z) (s : t) (sl : Slot)
  : RateLimitInfo * (t * Slot) :=
  let r := getRemainingRequests now1 s sl in
  ({| remaining := fst r; resetTime := getTimeUntilReset now2 (fst (snd r)) |}, snd r).

End RateLimiter.

(** ** The cache: data *)

(** The object [set] serialises under a cache key. [lastAccessed] is absent
    until the first successful [get]. *)
Record CacheEntry (Data : Type) := {
  data : Data;
  timestamp : Z;
  expires : Z;
  priority : Z;
  size : Z;
  version : string;
  tags : list string;
  metadata : list (string * string);
  lastAccessed : option Z
}.
Arguments data {Data} _.
Arguments timestamp {Data} _.
Arguments expires {Data} _.
Arguments priority {Data} _.
Arguments size {Data} _.
Arguments version {Data} _.
Arguments tags {Data} _.
Arguments metadata {Data} _.
Arguments lastAccessed {Data} _.

(** A value of [localStorage]: either the JSON text of an entry (kept as
    the entry [JSON.parse] returns for it) or any other text. Under a cache
    key, [Text] stands for a text on which [JSON.parse] throws; a text
    that parses to something other than an entry (such as [null]) is not
    represented. *)
Inductive Stored (Data : Type) :=
| Entry (e : CacheEntry Data)
| Text (raw : string).
Arguments Entry {Data} _.
Arguments Text {Data} _.

(** [localStorage]: keys in the order [localStorage.key(i)] lists them. *)
Definition Store (Data : Type) := list (string * Stored Data).

(** What the browser decides: whether [JSON.stringify] accepts a payload
    and how many bytes the text takes in a [Blob], how many bytes the text
    of an entry takes, and whether [localStorage.setItem] accepts a write
    or throws (quota exceeded). The store itself is reachable: reading,
    enumerating and removing keys never throw. *)
Class Browser (Data : Type) := {
  json_bytes : Data -> option Z;
  entry_bytes : CacheEntry Data -> Z;
  setItem_ok : Store Data -> string -> Stored Data -> bool
}.

(** The fields of [AdvancedCacheManager]. *)
Record Manager := {
  cachePrefix : string;
  maxCacheSize : Z;
  cachePriorities : list (string * Z)
}.

(** The values the constructor assigns. *)
Definition default_manager : Manager := {|
  cachePrefix := "cosmos_connect_";
  maxCacheSize := 50 * 1024 * 1024;
  cachePriorities :=
    [ ("user_preferences", 100); ("favorites", 90); ("recent_searches", 80);
      ("apod_data", 70); ("mars_weather", 60); ("asteroids", 50);
      ("space_weather", 40); ("rover_photos", 30); ("exoplanets", 20) ]
|}.

(** The [options] argument of [set]; an absent field is [None]. Numbers
    are whole: [ttl] counts milliseconds and [expires] is a timestamp in
    milliseconds. *)
Record SetOptions := {
  opt_expires : option Z;
  opt_ttl : option Z;
  opt_priority : option Z;
  opt_version : option string;
  opt_tags : option (list string);
  opt_metadata : option (list (string * string))
}.

Definition no_options : SetOptions := {|
  opt_expires := None; opt_ttl := None; opt_priority := None;
  opt_version := None; opt_tags := None; opt_metadata := None
|}.

(** [{ ...options, priority: p }] and [{ ...options, ttl: t }] *)
Definition with_priority (options : SetOptions) (p : option Z) : SetOptions := {|
  opt_expires := opt_expires options; opt_ttl := opt_ttl options;
  opt_priority := p; opt_version := opt_version options;
  opt_tags := opt_tags options; opt_metadata := opt_metadata options
|}.

Definition with_ttl (options : SetOptions) (ttl : option Z) : SetOptions := {|
  opt_expires := opt_expires options; opt_ttl := ttl;
  opt_priority := opt_priority options; opt_version := opt_version options;
  opt_tags := opt_tags options; opt_metadata := opt_metadata options
|}.


(** The [options] argument of [get]. *)
Record GetOptions := { get_version : option string }.

(** An element of [getStorageInfo().items]. *)
Record Item := {
  item_key : string;
  item_size : Z;
  item_expires : Z;
  item_priority : Z;
  item_lastAccessed : Z
}.

(** The result of [getStorageInfo()]; [utilizationPercent], a floating
    point quotient of [totalSize] and [maxSize], is left out. *)
Record StorageInfo := {
  totalSize : Z;
  itemCount : Z;
  items : list Item;
  maxSize : Z
}.

(** ** [Array.prototype.sort] with a comparator *)

Section Sort.
Context {A : Type} (cmp : A -> A -> Z).

(** [x] comes from the left of everything in [l]: it stays in front of
    the elements it compares equal to, so the sort is stable. *)
Fixpoint insert_by (x : A) (l : list A) : list A :=
  match l with
  | [] => [x]
  | y :: l' => if cmp x y <=? 0 then x :: l else y :: insert_by x l'
  end.

Definition sort_by (l : list A) : list A := fold_right insert_by [] l.

(** The order a comparator induces. *)
Definition before (x y : A) : Prop := cmp x y <= 0.
End Sort.

(** ** The cache: operations on [localStorage] that cannot throw *)

Section CacheStorage.
Context {Data : Type} `{Browser Data}.

(** [localStorage.getItem(k)] *)
Fixpoint getItem (k : string) (st : Store Data) : option (Stored Data) :=
  match st with
  | [] => None
  | (k', v) :: rest => if String.eqb k k' then Some v else getItem k rest
  end.

(** [localStorage.removeItem(k)] *)
Definition removeItem (k : string) (st : Store Data) : Store Data :=
  filter (fun kv => negb (String.eqb k (fst kv))) st.

(** The store after a [localStorage.setItem(k, v)] that is accepted: an
    existing key keeps its place, a new key goes last. *)
Fixpoint putItem (k : string) (v : Stored Data) (st : Store Data) : Store Data :=
  match st with
  | [] => [(k, v)]
  | (k', v') :: rest =>
      if String.eqb k k' then (k, v) :: rest else (k', v') :: putItem k v rest
  end.

(** [getCachePriority(key)]: the first pattern of the table, in its
    declaration order, that the key contains. *)
Fixpoint priority_of (table : list (string * Z)) (key : string) : Z :=
  match table with
  | [] => 10
  | (pattern, p) :: rest =>
      if includes pattern key then p else priority_of rest key
  end.

Definition getCachePriority (m : Manager) (key : string) : Z :=
  priority_of (cachePriorities m) key.

(** [key && key.startsWith(this.cachePrefix)] *)
Definition is_cache_key (m : Manager) (key : string) : bool :=
  negb (String.eqb key "") && startsWith (cachePrefix m) key.

(** The object pushed on [items] for the entry [e] stored under [k]. *)
Definition item_of (m : Manager) (k : string) (e : CacheEntry Data) : Item := {|
  item_key := replace_prefix (cachePrefix m) k;
  item_size := entry_bytes e;
  item_expires := expires e;
  item_priority := priority e;
  item_lastAccessed := orZ (lastAccessed e) (timestamp e)
|}.

(** The [for] loop of [getStorageInfo()], from index [i] on. The loop
    reads [localStorage.length] and [localStorage.key(i)] afresh at every
    step, and removes a corrupted entry while it iterates. [fuel] bounds
    the number of steps. *)
Fixpoint scan (m : Manager) (fuel i : nat) (st : Store Data)
         (totalSize itemCount : Z) (items : list Item)
  : (Z * Z * list Item) * Store Data :=
  match fuel with
  | O => ((totalSize, itemCount, items), st)
  | S fuel' =>
      match nth_error st i with
      | None => ((totalSize, itemCount, items), st)
      | Some (key, value) =>
          if is_cache_key m key then
            match value with
            | Entry cacheEntry =>
                let it := item_of m key cacheEntry in
                scan m fuel' (S i) st
                     (totalSize + item_size it) (itemCount + 1) (items ++ [it])
            | Text _ =>
                scan m fuel' (S i) (removeItem key st) totalSize itemCount items
            end
          else scan m fuel' (S i) st totalSize itemCount items
      end
  end.

(** [(a, b) => b.priority - a.priority] *)
Definition by_priority_desc (a b : Item) : Z := item_priority b - item_priority a.

(** [getStorageInfo()] *)
Definition getStorageInfo (m : Manager) (st : Store Data) : StorageInfo * Store Data :=
  let '((total, count, its), st') := scan m (List.length st) 0 st 0 0 [] in
  ({| totalSize := total;
      itemCount := count;
      items := sort_by by_priority_desc its;
      maxSize := maxCacheSize m |}, st').

(** The comparator of [enforceStorageLimit()]. *)
Definition by_removal_order (a b : Item) : Z :=
  if negb (item_priority a =? item_priority b)
  then item_priority a - item_priority b
  else item_lastAccessed a - item_lastAccessed b.

(** [freedSize >= targetReduction], where [targetReduction] is
    [totalSize - maxCacheSize * 0.8]. The product is taken exactly, as
    four fifths of [maxCacheSize], and the comparison is made in fifths
    of a byte; for the constructor's [maxCacheSize] the floating point
    product is the integer 41943040, the same value. *)
Definition freed_enough (m : Manager) (total freedSize : Z) : bool :=
  5 * total - 4 * maxCacheSize m <=? 5 * freedSize.

(** The removal loop of [enforceStorageLimit()]. *)
Fixpoint evict (m : Manager) (total : Z) (itemsForRemoval : list Item)
         (freedSize : Z) (st : Store Data) : Z * Store Data :=
  match itemsForRemoval with
  | [] => (freedSize, st)
  | item :: rest =>
      if freed_enough m total freedSize then (freedSize, st)
      else evict m total rest (freedSize + item_size item)
             (removeItem (cachePrefix m ++ item_key item)%string st)
  end.

(** [enforceStorageLimit()] *)
Definition enforceStorageLimit (m : Manager) (st : Store Data) : Store Data :=
  let '(storageInfo, st1) := getStorageInfo m st in
  if totalSize storageInfo <=? maxCacheSize m then st1
  else
    let itemsForRemoval := sort_by by_removal_order (items storageInfo) in
    snd (evict m (totalSize storageInfo) itemsForRemoval 0 st1).

(** [clearLowPriorityCache()] *)
Definition clearLowPriorityCache (m : Manager) (st : Store Data) : Store Data :=
  let '(storageInfo, st1) := getStorageInfo m st in
  let lowPriorityItems := filter (fun item => item_priority item <? 50) (items storageInfo) in
  fold_left (fun s item => removeItem (cachePrefix m ++ item_key item)%string s)
            lowPriorityItems st1.

(** The keys [clearCache(pattern)] collects; the collecting loop changes
    nothing in the store. *)
Definition keys_matching (m : Manager) (pattern : option string) (st : Store Data)
  : list string :=
  map fst
    (filter (fun kv =>
               is_cache_key m (fst kv) &&
               match truthyS pattern with
               | None => true
               | Some p => includes p (fst kv)
               end) st).

(** [clearCache(pattern = null)] *)
Definition clearCache (m : Manager) (pattern : option string) (st : Store Data)
  : Z * Store Data :=
  let keysToDelete := keys_matching m pattern st in
  (Z.of_nat (List.length keysToDelete),
   fold_left (fun s key => removeItem key s) keysToDelete st).

(** The keys [cleanupExpiredCache()] collects at time [now]. *)
Definition keys_expired (m : Manager) (now : Z) (st : Store Data) : list string :=
  map fst
    (filter (fun kv =>
               is_cache_key m (fst kv) &&
               match snd kv with
               | Entry cacheEntry => now >? expires cacheEntry
               | Text _ => true
               end) st).

End CacheStorage.

(** ** The cache: operations that read the clock or may throw *)

(** What the cache runs in: [localStorage], the wall clock as the sequence
    of values successive [Date.now()] calls return, the number of readings
    taken so far, and the [setItem] calls made so far with their outcome
    (most recent first). *)
Record World (Data : Type) := {
  storage : Store Data;
  clock : nat -> Z;
  reads : nat;
  setItem_calls : list (string * bool)
}.
Arguments storage {Data} _.
Arguments clock {Data} _.
Arguments reads {Data} _.
Arguments setItem_calls {Data} _.

(** How a JavaScript computation ends. *)
Inductive Completion (A : Type) :=
| Normal (a : A)
| Throw.
Arguments Normal {A} _.
Arguments Throw {A}.

(** A computation: effects made before a [throw] stay. *)
Definition JS (Data A : Type) := World Data -> Completion A * World Data.

Section Monad.
Context {Data : Type}.

Definition ret {A} (a : A) : JS Data A := fun w => (Normal a, w).

Definition bind {A B} (c : JS Data A) (k : A -> JS Data B) : JS Data B :=
  fun w =>
    match c w with
    | (Normal a, w') => k a w'
    | (Throw, w') => (Throw, w')
    end.

Definition throw {A} : JS Data A := fun w => (Throw, w).

(** [try { c } catch (error) { handler }] *)
Definition try_catch {A} (c handler : JS Data A) : JS Data A :=
  fun w =>
    match c w with
    | (Normal a, w') => (Normal a, w')
    | (Throw, w') => handler w'
    end.

(** A storage operation that cannot throw. *)
Definition on_storage {A} (f : Store Data -> A * Store Data) : JS Data A :=
  fun w =>
    let '(a, st) := f (storage w) in
    (Normal a,
     {| storage := st; clock := clock w; reads := reads w;
        setItem_calls := setItem_calls w |}).
End Monad.

Declare Scope js_scope.
Delimit Scope js_scope with js.
Notation "x <- c ;; k" := (bind c (fun x => k))
  (at level 61, c at next level, right associativity) : js_scope.
Notation "c ;; k" := (bind c (fun _ => k))
  (at level 61, right associativity) : js_scope.

Section CacheOperations.
Context {Data : Type} `{Browser Data}.
Local Open Scope js_scope.

(** [Date.now()] *)
Definition Date_now : JS Data Z :=
  fun w =>
    (Normal (clock w (reads w)),
     {| storage := storage w; clock := clock w; reads := S (reads w);
        setItem_calls := setItem_calls w |}).

(** [localStorage.setItem(k, v)] *)
Definition localStorage_setItem (k : string) (v : Stored Data) : JS Data unit :=
  fun w =>
    if setItem_ok (storage w) k v
    then (Normal tt,
          {| storage := putItem k v (storage w); clock := clock w; reads := reads w;
             setItem_calls := (k, true) :: setItem_calls w |})
    else (Throw,
          {| storage := storage w; clock := clock w; reads := reads w;
             setItem_calls := (k, false) :: setItem_calls w |}).

Definition localStorage_getItem (k : string) : JS Data (option (Stored Data)) :=
  on_storage (fun st => (getItem k st, st)).

Definition localStorage_removeItem (k : string) : JS Data unit :=
  on_storage (fun st => (tt, removeItem k st)).

(** [JSON.stringify(cacheEntry)]: throws when the payload cannot be
    serialised. *)
Definition JSON_stringify (e : CacheEntry Data) : JS Data (Stored Data) :=
  match json_bytes (data e) with
  | Some _ => ret (Entry e)
  | None => throw
  end.

(** [JSON.parse(cached)] *)
Definition JSON_parse (v : Stored Data) : JS Data (CacheEntry Data) :=
  match v with
  | Entry e => ret e
  | Text _ => throw
  end.

(** [calculateSize(data)] *)
Definition calculateSize (d : Data) : JS Data Z :=
  match json_bytes d with
  | Some n => ret n
  | None => throw
  end.

(** [delete(key)] *)
Definition delete (m : Manager) (key : string) : JS Data unit :=
  localStorage_removeItem (cachePrefix m ++ key)%string.

(** The object literal [cacheEntry] of [set]; its fields are evaluated
    in the order they are written. *)
Definition make_entry (m : Manager) (key : string) (d : Data) (options : SetOptions)
  : JS Data (CacheEntry Data) :=
  created <- Date_now ;;
  expiry <- match truthyZ (opt_expires options) with
            | Some e => ret e
            | None => now <- Date_now ;; ret (now + orZ (opt_ttl options) 3600000)
            end ;;
  let prio := orZ (opt_priority options) (getCachePriority m key) in
  bytes <- calculateSize d ;;
  ret {| data := d;
         timestamp := created;
         expires := expiry;
         priority := prio;
         size := bytes;
         version := match truthyS (opt_version options) with
                    | Some v => v
                    | None => "1.0"
                    end;
         tags := match opt_tags options with Some t => t | None => [] end;
         metadata := match opt_metadata options with Some x => x | None => [] end;
         lastAccessed := None |}.

(** [set(key, data, options = {})] *)
Definition set (m : Manager) (key : string) (d : Data) (options : SetOptions)
  : JS Data bool :=
  cacheEntry <- make_entry m key d options ;;
  try_catch
    (text <- JSON_stringify cacheEntry ;;
     localStorage_setItem (cachePrefix m ++ key)%string text ;;
     on_storage (fun st => (tt, enforceStorageLimit m st)) ;;
     ret true)
    (on_storage (fun st => (tt, clearLowPriorityCache m st)) ;;
     try_catch
       (text <- JSON_stringify cacheEntry ;;
        localStorage_setItem (cachePrefix m ++ key)%string text ;;
        ret true)
       (ret false)).

Definition touch (e : CacheEntry Data) (now : Z) : CacheEntry Data := {|
  data := data e; timestamp := timestamp e; expires := expires e;
  priority := priority e; size := size e; version := version e;
  tags := tags e; metadata := metadata e; lastAccessed := Some now
|}.

(** [options.version && cacheEntry.version !== options.version] *)
Definition version_mismatch (options : GetOptions) (e : CacheEntry Data) : bool :=
  match truthyS (get_version options) with
  | Some v => negb (String.eqb (version e) v)
  | None => false
  end.

(** [get(key, options = {})]; [None] is the [null] of a miss. *)
Definition get (m : Manager) (key : string) (options : GetOptions)
  : JS Data (option Data) :=
  try_catch
    (cached <- localStorage_getItem (cachePrefix m ++ key)%string ;;
     match cached with
     | None => ret None
     | Some (Text EmptyString) => ret None
     | Some value =>
         cacheEntry <- JSON_parse value ;;
         now <- Date_now ;;
         if now >? expires cacheEntry then
           delete m key ;; ret None
         else if version_mismatch options cacheEntry then
           delete m key ;; ret None
         else
           accessed <- Date_now ;;
           let cacheEntry' := touch cacheEntry accessed in
           text <- JSON_stringify cacheEntry' ;;
           localStorage_setItem (cachePrefix m ++ key)%string text ;;
           ret (Some (data cacheEntry'))
     end)
    (delete m key ;; ret None).

(** [cleanupExpiredCache()] *)
Definition cleanupExpiredCache (m : Manager) : JS Data unit :=
  now <- Date_now ;;
  on_storage (fun st =>
    (tt, fold_left (fun s key => removeItem key s) (keys_expired m now st) st)).

(** [init()]; [setupStorageListener()] only registers a logging callback. *)
Definition init (m : Manager) : JS Data unit :=
  cleanupExpiredCache m ;;
  on_storage (fun st => (tt, enforceStorageLimit m st)).

End CacheOperations.

(** ** The cache: bulk writes and migration *)

Section CacheBulk.
Context {Data : Type} `{Browser Data}.
Local Open Scope js_scope.

(** The loop of [setMultiple(entries)]; an element of [entries] is
    [{ key, data, options }], an element of [results] is
    [{ key, success }]. *)
Fixpoint setMultiple_loop (m : Manager) (entries : list (string * Data * SetOptions))
         (results : list (string * bool)) : JS Data (list (string * bool)) :=
  match entries with
  | [] => ret results
  | (key, d, options) :: rest =>
      success <- set m key d options ;;
      setMultiple_loop m rest (results ++ [(key, success)])
  end.

(** [setMultiple(entries)] *)
Definition setMultiple (m : Manager) (entries : list (string * Data * SetOptions))
  : JS Data (list (string * bool)) :=
  setMultiple_loop m entries [].

(** The entry [migrateCache] writes back: new data, version ['1.0'],
    every other field as it was. *)
Definition migrated (e : CacheEntry Data) (newData : Data) : CacheEntry Data := {|
  data := newData; timestamp := timestamp e; expires := expires e;
  priority := priority e; size := size e; version := "1.0";
  tags := tags e; metadata := metadata e; lastAccessed := lastAccessed e
|}.

(** The [try] block of [migrateCache] for one key; [migration] returns
    [None] when the caller's function throws. *)
Definition migrate_key (oldVersion : string) (migration : Data -> option Data)
           (key : string) : JS Data unit :=
  try_catch
    (cached <- localStorage_getItem key ;;
     cacheEntry <- match cached with
                   | Some value => JSON_parse value
                   | None => throw
                   end ;;
     if String.eqb (version cacheEntry) oldVersion then
       newData <- match migration (data cacheEntry) with
                  | Some d => ret d
                  | None => throw
                  end ;;
       text <- JSON_stringify (migrated cacheEntry newData) ;;
       localStorage_setItem key text
     else ret tt)
    (ret tt).

(** The inner [for] loop of [migrateCache], from index [i] on; [fuel]
    bounds the number of steps. *)
Fixpoint migrate_scan (m : Manager) (oldVersion : string)
         (migration : Data -> option Data) (fuel i : nat) : JS Data unit :=
  match fuel with
  | O => ret tt
  | S fuel' =>
      fun w =>
        match nth_error (storage w) i with
        | None => (Normal tt, w)
        | Some (key, _) =>
            ((if is_cache_key m key then migrate_key oldVersion migration key
              else ret tt) ;;
             migrate_scan m oldVersion migration fuel' (S i)) w
        end
  end.

(** [migrateCache(migrations)]; [migrations] lists the pairs of
    [Object.entries(migrations)]. *)
Fixpoint migrateCache (m : Manager) (migrations : list (string * (Data -> option Data)))
  : JS Data unit :=
  match migrations with
  | [] => ret tt
  | (oldVersion, migration) :: rest =>
      (fun w => migrate_scan m oldVersion migration (List.length (storage w)) 0 w) ;;
      migrateCache m rest
  end.

(** The key of an element of [entries]. *)
Definition entry_key (x : string * Data * SetOptions) : string := fst (fst x).

(** The payload of an element of [entries] can be serialised. *)
Definition serialisable (x : string * Data * SetOptions) : Prop :=
  json_bytes (snd (fst x)) <> None.

(** What one migration makes of a pair of the store when every write is
    accepted: a cache entry of the old version takes the new data and
    version ['1.0'], unless the migration function throws or returns data
    that cannot be serialised; every other pair is left as it is. *)
Definition migrate_pair (m : Manager) (oldVersion : string)
           (migration : Data -> option Data) (kv : string * Stored Data)
  : string * Stored Data :=
  if is_cache_key m (fst kv) then
    match snd kv with
    | Entry e =>
        if String.eqb (version e) oldVersion then
          match migration (data e) with
          | Some d =>
              match json_bytes d with
              | Some _ => (fst kv, Entry (migrated e d))
              | None => kv
              end
          | None => kv
          end
        else kv
    | Text _ => kv
    end
  else kv.

End CacheBulk.

(** ** The timestamped cache of the utilities ([StorageUtils], [CacheUtils]) *)

Module SimpleCache.

(** [{ data, timestamp }], the object [createCacheItem] builds. *)
Record CacheItem (Data : Type) := {
  item_data : Data;
  item_timestamp : Z
}.
Arguments item_data {Data} _.
Arguments item_timestamp {Data} _.

(** What a key of [localStorage] holds for [CacheUtils]: the JSON text
    of a cache item, or anything else (a text that does not parse, or one
    that parses to a value without a timestamp). *)
Inductive Value (Data : Type) :=
| Item (c : CacheItem Data)
| Other.
Arguments Item {Data} _.
Arguments Other {Data}.

(** [localStorage] as the utilities use it, with the browser's decision
    on each write: [accepts] is [false] when [JSON.stringify] or
    [localStorage.setItem] throws. *)
Record Storage (Data : Type) := {
  pairs : list (string * Value Data);
  accepts : list (string * Value Data) -> string -> CacheItem Data -> bool
}.
Arguments pairs {Data} _.
Arguments accepts {Data} _.

Section Operations.
Context {Data : Type}.

Fixpoint lookup (k : string) (l : list (string * Value Data)) : option (Value Data) :=
  match l with
  | [] => None
  | (k', v) :: rest => if String.eqb k k' then Some v else lookup k rest
  end.

Fixpoint put (k : string) (v : Value Data) (l : list (string * Value Data))
  : list (string * Value Data) :=
  match l with
  | [] => [(k, v)]
  | (k', v') :: rest => if String.eqb k k' then (k, v) :: rest else (k', v') :: put k v rest
  end.

(** [StorageUtils.set(key, value)] for a cache item: a failure is caught
    and reported as [false]. *)
Definition StorageUtils_set (key : string) (value : CacheItem Data) (st : Storage Data)
  : bool * Storage Data :=
  if accepts st (pairs st) key value
  then (true, {| pairs := put key (Item value) (pairs st); accepts := accepts st |})
  else (false, st).

(** [StorageUtils.get(key)] with the default [null]: the cache item the
    key holds, [None] for [null] and for a value without a timestamp. *)
Definition StorageUtils_get (key : string) (st : Storage Data) : option (CacheItem Data) :=
  match lookup key (pairs st) with
  | Some (Item c) => Some c
  | Some Other => None
  | None => None
  end.

(** [CacheUtils.isExpired(cacheItem, maxAgeMinutes)] at time [now] *)
Definition isExpired (now : Z) (cacheItem : option (CacheItem Data)) (maxAgeMinutes : Z)
  : bool :=
  match cacheItem with
  | None => true
  | Some c =>
      if item_timestamp c =? 0 then true
      else
        let age := now - item_timestamp c in
        let maxAge := maxAgeMinutes * 60 * 1000 in
        age >? maxAge
  end.

(** [CacheUtils.createCacheItem(data)] at time [now] *)
Definition createCacheItem (now : Z) (d : Data) : CacheItem Data :=
  {| item_data := d; item_timestamp := now |}.

(** [CacheUtils.getCachedData(key, maxAgeMinutes)]; [None] is [null]. *)
Definition getCachedData (now : Z) (key : string) (maxAgeMinutes : Z) (st : Storage Data)
  : option Data :=
  let cacheItem := StorageUtils_get ("cache_" ++ key)%string st in
  match cacheItem with
  | None => None
  | Some c => if isExpired now cacheItem maxAgeMinutes then None else Some (item_data c)
  end.

(** [CacheUtils.setCachedData(key, data, maxAgeMinutes)] at time [now];
    the third argument is not used. *)
Definition setCachedData (now : Z) (key : string) (d : Data) (st : Storage Data)
  : bool * Storage Data :=
  StorageUtils_set ("cache_" ++ key)%string (createCacheItem now d) st.

End Operations.
End SimpleCache.

(** ** [BaseAPIService.makeRequest] *)

Module ApiService.

(** What [makeRequest] asks of a response body: whether it is truthy, and
    the text of [errorData.error.message] when both are truthy. *)
Class Body (Data : Type) := {
  truthy : Data -> bool;
  error_message : Data -> option string
}.

(** The text of an [APIError], by the way it is built. *)
Inductive Message :=
| RateLimitExceeded (timeUntilReset : Z)
  (* Rate limit exceeded. Try again in ceil(timeUntilReset / 1000 / 60) minutes. *)
| HttpStatus (status : Z) (statusText : string)
  (* HTTP status: statusText *)
| Described (text : string)
  (* the text of errorData.error.message or of error.message *)
| NoInternet
  (* No internet connection available. *)
| NetworkFailed.
  (* Network request failed. *)

Record APIError := {
  status : Z;
  message : Message;
  endpoint : string
}.

(** What [response.json()] settles to: a value, or a rejection with the
    text of its [message]. *)
Inductive Json (Data : Type) :=
| Parsed (d : Data)
| Unparsed (text : string).
Arguments Parsed {Data} _.
Arguments Unparsed {Data} _.

Record Response (Data : Type) := {
  response_ok : bool;
  response_status : Z;
  response_statusText : string;
  response_json : Json Data
}.
Arguments response_ok {Data} _.
Arguments response_status {Data} _.
Arguments response_statusText {Data} _.
Arguments response_json {Data} _.

(** What [fetch(url)] settles to: a response, or a rejection with the
    text of its [message]. *)
Inductive Fetched (Data : Type) :=
| Resolved (r : Response Data)
| Rejected (text : string).
Arguments Resolved {Data} _.
Arguments Rejected {Data} _.

(** What one call meets outside the service: the clock readings of the
    five places that call [Date.now()], whether [URLUtils.buildURL]
    accepts the URL, what [fetch] settles to, and [navigator.onLine]. *)
Record Surroundings (Data : Type) := {
  now_cache : Z;
  now_check : Z;
  now_reset : Z;
  now_record : Z;
  now_store : Z;
  url_ok : bool;
  fetched : Fetched Data;
  onLine : bool
}.
Arguments now_cache {Data} _.
Arguments now_check {Data} _.
Arguments now_reset {Data} _.
Arguments now_record {Data} _.
Arguments now_store {Data} _.
Arguments url_ok {Data} _.
Arguments fetched {Data} _.
Arguments onLine {Data} _.

(** The state a call works on: the limiter of the service, its slot of
    [localStorage], and the keys of [CacheUtils]. *)
Record Service (Data : Type) := {
  limiter : RateLimiter.t;
  slot : RateLimiter.Slot;
  cache : SimpleCache.Storage Data
}.
Arguments limiter {Data} _.
Arguments slot {Data} _.
Arguments cache {Data} _.

(** How a call ends: with data, with an [APIError], or with the
    [TypeError] of [new URL]. *)
Inductive Outcome (Data : Type) :=
| Returned (d : Data)
| Failed (e : APIError)
| BadUrl.
Arguments Returned {Data} _.
Arguments Failed {Data} _.
Arguments BadUrl {Data}.

(** The result of a call, with the state it leaves and whether [fetch]
    was called. *)
Record Result (Data : Type) := {
  outcome : Outcome Data;
  service : Service Data;
  fetch_called : bool
}.
Arguments outcome {Data} _.
Arguments service {Data} _.
Arguments fetch_called {Data} _.

Section Operations.
Context {Data : Type} `{Body Data}.

(** The [catch] block of [makeRequest] for an error that is not an
    [APIError]. *)
Definition network_error (env : Surroundings Data) (endpoint : string) (text : string)
  : APIError :=
  if negb (onLine env)
  then {| status := 0; message := NoInternet; endpoint := endpoint |}
  else {| status := 0;
          message := match text with
                     | EmptyString => NetworkFailed
                     | _ => Described text
                     end;
          endpoint := endpoint |}.

(** The message of the [APIError] for a response that is not [ok]. *)
Definition error_text (r : Response Data) : Message :=
  match response_json r with
  | Parsed errorData =>
      match error_message errorData with
      | Some text => Described text
      | None => HttpStatus (response_status r) (response_statusText r)
      end
  | Unparsed _ => HttpStatus (response_status r) (response_statusText r)
  end.

(** The cached data [makeRequest] returns at once, if any. *)
Definition cache_hit (env : Surroundings Data) (cacheKey : option string)
           (cacheDuration : Z) (svc : Service Data) : option Data :=
  match truthyS cacheKey with
  | Some key =>
      match SimpleCache.getCachedData (now_cache env) key cacheDuration (cache svc) with
      | Some cachedData => if truthy cachedData then Some cachedData else None
      | None => None
      end
  | None => None
  end.

(** [makeRequest(endpoint, params, cacheKey, cacheDuration)]. The awaited
    [fetch] and [response.json()] are given by [env]; [params] only go into
    the URL. *)
Definition makeRequest (env : Surroundings Data) (endpoint : string)
           (cacheKey : option string) (cacheDuration : Z) (svc : Service Data)
  : Result Data :=
  match cache_hit env cacheKey cacheDuration svc with
  | Some cachedData =>
      {| outcome := Returned cachedData; service := svc; fetch_called := false |}
  | None =>
      let '(allowed, (lim, sl)) :=
        RateLimiter.canMakeRequest (now_check env) (limiter svc) (slot svc) in
      let checked := {| limiter := lim; slot := sl; cache := cache svc |} in
      if negb allowed then
        {| outcome :=
             Failed {| status := 429;
                       message := RateLimitExceeded
                                    (RateLimiter.getTimeUntilReset (now_reset env) lim);
                       endpoint := endpoint |};
           service := checked; fetch_called := false |}
      else if negb (url_ok env) then
        {| outcome := BadUrl; service := checked; fetch_called := false |}
      else
        let '(lim', sl') := RateLimiter.recordRequest (now_record env) lim sl in
        let recorded := {| limiter := lim'; slot := sl'; cache := cache svc |} in
        match fetched env with
        | Rejected text =>
            {| outcome := Failed (network_error env endpoint text);
               service := recorded; fetch_called := true |}
        | Resolved response =>
            if negb (response_ok response) then
              {| outcome :=
                   Failed {| status := response_status response;
                             message := error_text response;
                             endpoint := endpoint |};
                 service := recorded; fetch_called := true |}
            else
              match response_json response with
              | Unparsed text =>
                  {| outcome := Failed (network_error env endpoint text);
                     service := recorded; fetch_called := true |}
              | Parsed d =>
                  {| outcome := Returned d;
                     service :=
                       match truthyS cacheKey with
                       | Some key =>
                           {| limiter := lim'; slot := sl';
                              cache := snd (SimpleCache.setCachedData
                                              (now_store env) key d (cache svc)) |}
                       | None => recorded
                       end;
                     fetch_called := true |}
              end
        end
  end.

(** The timestamps [canMakeRequest()] leaves at the time of the check. *)
Definition in_window (env : Surroundings Data) (svc : Service Data) : list Z :=
  filter (fun t => now_check env - t <? RateLimiter.windowMs (limiter svc))
         (RateLimiter.requests (limiter svc)).

End Operations.
End ApiService.

(** ** The vocabulary of the properties *)

Section CacheVocabulary.
Context {Data : Type} `{Browser Data}.

(** Removing one key after another. *)
Definition remove_keys (keys : list string) (st : Store Data) : Store Data :=
  fold_left (fun s key => removeItem key s) keys st.

(** [prefix + item.key] *)
Definition full_key (m : Manager) (it : Item) : string :=
  (cachePrefix m ++ item_key it)%string.

(** No key occurs twice, as in every [localStorage]. *)
Definition distinct_keys (st : Store Data) : Prop := NoDup (map fst st).

(** No cache key holds a text that fails to parse. *)
Definition parseable (m : Manager) (st : Store Data) : Prop :=
  forall k raw, In (k, Text raw) st -> is_cache_key m k = false.

(** The items of the parseable cache entries, in store order. *)
Definition cache_items (m : Manager) (st : Store Data) : list Item :=
  flat_map (fun kv =>
              if is_cache_key m (fst kv) then
                match snd kv with
                | Entry e => [item_of m (fst kv) e]
                | Text _ => []
                end
              else []) st.

Definition sum_sizes (its : list Item) : Z :=
  fold_right (fun it acc => item_size it + acc) 0 its.

(** Ascending (priority, lastAccessed): what the comparator of
    [enforceStorageLimit] decides. *)
Definition removal_le (a b : Item) : Prop :=
  item_priority a < item_priority b \/
  (item_priority a = item_priority b /\ item_lastAccessed a <= item_lastAccessed b).

(** A reading of budget enforcement: whatever an eviction pass removed
    from the store [written] was already in the store [before] the write. *)
Definition evicted_were_present (before written final : Store Data) : Prop :=
  forall k, getItem k written <> None -> getItem k final = None ->
            getItem k before <> None.

(** Which pairs [clearLowPriorityCache] removes. *)
Definition is_low_priority (m : Manager) (kv : string * Stored Data) : bool :=
  is_cache_key m (fst kv) &&
  match snd kv with
  | Entry e => priority e <? 50
  | Text _ => false
  end.

(** Which keys [clearCache(pattern)] removes. *)
Definition matches_pattern (m : Manager) (pattern : option string) (k : string) : bool :=
  is_cache_key m k &&
  match truthyS pattern with
  | None => true
  | Some p => includes p k
  end.

(** Which pairs [cleanupExpiredCache()] removes at time [now]. *)
Definition is_stale (m : Manager) (now : Z) (kv : string * Stored Data) : bool :=
  is_cache_key m (fst kv) &&
  match snd kv with
  | Entry e => now >? expires e
  | Text _ => true
  end.

End CacheVocabulary.

(** ** A browser for the worked examples *)

Module Scenario.

(** A payload is a text of [n] ASCII letters, or an object that refers
    to itself (which [JSON.stringify] rejects). *)
Inductive Payload :=
| Letters (n : Z)
| Cyclic.

(** The JSON text of [n] letters is the letters between two quotes. *)
Definition payload_bytes (p : Payload) : option Z :=
  match p with
  | Letters n => Some (n + 2)
  | Cyclic => None
  end.

(** The JSON text of an entry: its payload, about 120 bytes of field
    names and numbers, and 29 more once [lastAccessed] is recorded. *)
Definition text_bytes (e : CacheEntry Payload) : Z :=
  match payload_bytes (data e) with Some n => n | None => 0 end + 120 +
  match lastAccessed e with Some _ => 29 | None => 0 end.

Definition stored_bytes (v : Stored Payload) : Z :=
  match v with
  | Entry e => text_bytes e
  | Text raw => Z.of_nat (String.length raw)
  end.

Definition used_bytes (st : Store Payload) : Z :=
  fold_right (fun kv acc => Z.of_nat (String.length (fst kv)) + stored_bytes (snd kv) + acc)
             0 st.

(** A browser whose [localStorage] holds at most [quota] bytes: a write
    is refused when the store would outgrow the quota. *)
Definition browser (quota : Z) : Browser Payload := {|
  json_bytes := payload_bytes;
  entry_bytes := text_bytes;
  setItem_ok := fun st k v => used_bytes (putItem k v st) <=? quota
|}.

(** A world with the given store in which every [Date.now()] reads
    [now]. *)
Definition world_at (now : Z) (st : Store Payload) : World Payload :=
  {| storage := st; clock := fun _ => now; reads := 0; setItem_calls := [] |}.

(** A manager like the constructor's, with another byte budget. *)
Definition manager_with_budget (B : Z) : Manager :=
  {| cachePrefix := cachePrefix default_manager;
     maxCacheSize := B;
     cachePriorities := cachePriorities default_manager |}.

(** A fresh entry (never read, version 1.0, no tags, no metadata). *)
Definition fresh_entry (p : Payload) (bytes created expiry prio : Z)
  : CacheEntry Payload :=
  {| data := p; timestamp := created; expires := expiry; priority := prio;
     size := bytes; version := "1.0"; tags := []; metadata := [];
     lastAccessed := None |}.

(** A browser with the usual quota of five megabytes. *)
Definition roomy : Browser Payload := browser 5242880.

(** The store after [set(key, payload, options)] at time [now], from the
    store [st]. *)
Definition store_after_set (b : Browser Payload) (m : Manager) (now : Z)
           (key : string) (p : Payload) (options : SetOptions) (st : Store Payload)
  : Store Payload :=
  storage (snd (@set Payload b m key p options (world_at now st))).

(** The scenario of the specification with a budget of 1000 bytes: entry
    A (priority 90, 600 bytes) is stored; writing entry B (priority 10,
    600 bytes) brings the total to 1200. *)
Definition m1000 : Manager := manager_with_budget 1000.
Definition priority_90 : SetOptions := with_priority no_options (Some 90).
Definition priority_10 : SetOptions := with_priority no_options (Some 10).
Definition world_A : World Payload :=
  world_at 2000 (store_after_set roomy m1000 1000 "A" (Letters 478) priority_90 []).
Definition entry_B : CacheEntry Payload := fresh_entry (Letters 478) 480 2000 3602000 10.

(** Entries A and B of 600 bytes each behind a text that does not parse. *)
Definition store_with_garbage : Store Payload :=
  [ ("cosmos_connect_bad", Text "{");
    ("cosmos_connect_A", Entry (fresh_entry (Letters 478) 480 1000 3601000 90));
    ("cosmos_connect_B", Entry entry_B) ].

(** An entry written at time 1000 with a ttl of 500 ms, read at 2000. *)
Definition short_lived : Store Payload :=
  store_after_set roomy default_manager 1000 "apod" (Letters 10)
                  (with_ttl no_options (Some 500)) [].

(** A browser with a quota of 300 bytes that holds one low priority
    entry of 249 bytes; the entry to write takes 348 bytes with its key. *)
Definition cramped : Browser Payload := browser 300.
Definition one_exoplanet : Store Payload :=
  store_after_set cramped default_manager 1000 "exoplanets_x" (Letters 100) no_options [].
Definition big_entry : CacheEntry Payload :=
  fresh_entry (Letters 200) 202 2000 3602000 10.

(** The same browser when a text that does not parse sits in front of the
    low priority entry. *)
Definition low_behind_garbage : Store Payload :=
  ("cosmos_connect_bad", Text "{") :: one_exoplanet.

(** A browser with a quota of 160 bytes that holds one entry of 151
    bytes; recording [lastAccessed] makes its text 29 bytes longer. *)
Definition tight : Browser Payload := browser 160.
Definition one_apod : Store Payload :=
  store_after_set tight default_manager 1000 "apod" (Letters 10) no_options [].

(** [{ priority: 0, ttl: 0 }] *)
Definition zero_options : SetOptions :=
  with_ttl (with_priority no_options (Some 0)) (Some 0).

(** Two cache entries, whose keys as the callers wrote them are [apod_1]
    and [mars], and one other key of the application. *)
Definition mixed_store : Store Payload :=
  [ ("cosmos_connect_apod_1", Entry (fresh_entry (Letters 10) 12 1000 3601000 10));
    ("app_theme", Text "dark");
    ("cosmos_connect_mars", Entry (fresh_entry (Letters 20) 22 1000 3601000 10)) ].

End Scenario.

(** ** Inputs of the further worked examples *)

Module ExtraScenario.
Import Scenario.

(** A browser that accepts every write. *)
Definition unlimited : Browser Payload := {|
  json_bytes := payload_bytes;
  entry_bytes := text_bytes;
  setItem_ok := fun _ _ _ => true
|}.

(** A limiter of three requests per second with two requests on record. *)
Definition two_of_three : RateLimiter.t :=
  {| RateLimiter.maxRequests := 3; RateLimiter.windowMs := 1000;
     RateLimiter.requests := [0; 100] |}.

(** The same limiter with its three requests spent. *)
Definition three_of_three : RateLimiter.t :=
  {| RateLimiter.maxRequests := 3; RateLimiter.windowMs := 1000;
     RateLimiter.requests := [0; 100; 200] |}.

(** A limiter with nothing on record. *)
Definition unused_limiter : RateLimiter.t :=
  {| RateLimiter.maxRequests := 3; RateLimiter.windowMs := 1000;
     RateLimiter.requests := [] |}.

(** A slot that holds nothing and refuses every write. *)
Definition full_slot : RateLimiter.Slot :=
  {| RateLimiter.saved := None; RateLimiter.accepts := fun _ => false |}.

Definition per_second : RateLimiter.Config :=
  {| RateLimiter.cfg_requests := 3; RateLimiter.cfg_window := 1000 |}.

(** The entry [set('apod', ...)] stores at time 1000 with no options. *)
Definition apod_entry : CacheEntry Payload :=
  fresh_entry (Letters 10) 12 1000 3601000 10.

Definition apod_store : Store Payload := [("cosmos_connect_apod", Entry apod_entry)].

(** A cache key that holds a text that does not parse. *)
Definition garbled_store : Store Payload := [("cosmos_connect_apod", Text "{")].

(** Entry A of the budget scenario, and the store that holds it. *)
Definition entry_A : CacheEntry Payload := fresh_entry (Letters 478) 480 1000 3601000 90.

(** A low priority entry, a high priority entry and a key of the
    application. *)
Definition two_priorities : Store Payload :=
  [ ("cosmos_connect_exoplanets_x", Entry (fresh_entry (Letters 100) 102 1000 3601000 20));
    ("app_theme", Text "dark");
    ("cosmos_connect_A", Entry entry_A) ].

(** The elements of a batch for [setMultiple]. *)
Definition batch_a : string * Payload * SetOptions := ("a", Letters 1, no_options).
Definition batch_c : string * Payload * SetOptions := ("c", Letters 3, no_options).

(** A migration that doubles the letters; it fails on a cyclic payload. *)
Definition double_letters (p : Payload) : option Payload :=
  match p with
  | Letters n => Some (Letters (2 * n))
  | Cyclic => None
  end.

(** A text of letters is truthy unless it is empty, an object is truthy;
    neither carries an [error] field. *)
Definition payload_body : ApiService.Body Payload := {|
  ApiService.truthy := fun p => match p with Letters n => 0 <? n | Cyclic => true end;
  ApiService.error_message := fun _ => None
|}.

(** The keys of [CacheUtils], empty, in a browser that accepts every
    write. *)
Definition empty_cache : SimpleCache.Storage Payload :=
  {| SimpleCache.pairs := []; SimpleCache.accepts := fun _ _ _ => true |}.

(** A service whose limiter is spent, and one whose limiter is unused. *)
Definition spent_service : ApiService.Service Payload :=
  {| ApiService.limiter := three_of_three;
     ApiService.slot := RateLimiter.empty_slot;
     ApiService.cache := empty_cache |}.

Definition fresh_service : ApiService.Service Payload :=
  {| ApiService.limiter := unused_limiter;
     ApiService.slot := RateLimiter.empty_slot;
     ApiService.cache := empty_cache |}.

(** A response [200 OK] whose body parses to five letters. *)
Definition ok_response : ApiService.Response Payload :=
  {| ApiService.response_ok := true;
     ApiService.response_status := 200;
     ApiService.response_statusText := "OK";
     ApiService.response_json := ApiService.Parsed (Letters 5) |}.

(** A call at time [now] with a valid URL, online. *)
Definition call_at (now : Z) (f : ApiService.Fetched Payload)
  : ApiService.Surroundings Payload :=
  {| ApiService.now_cache := now; ApiService.now_check := now;
     ApiService.now_reset := now; ApiService.now_record := now;
     ApiService.now_store := now; ApiService.url_ok := true;
     ApiService.fetched := f; ApiService.onLine := true |}.

End ExtraScenario.

(** * Properties of the rate limiter *)

Module RateLimiterFacts.
Import RateLimiter.

Lemma cleanOldRequests_keeps now s sl :
  requests (fst (cleanOldRequests now s sl)) =
  filter (fun t => now - t <? windowMs s) (requests s).
Proof. reflexivity. Qed.

Lemma cleanOldRequests_config now s sl :
  maxRequests (fst (cleanOldRequests now s sl)) = maxRequests s /\
  windowMs (fst (cleanOldRequests now s sl)) = windowMs s.
Proof. split; reflexivity. Qed.

(** After a pruning at [now] every timestamp left is inside the window. *)
Lemma cleanOldRequests_in_window now s sl t :
  In t (requests (fst (cleanOldRequests now s sl))) -> now - t < windowMs s.
Proof.
  rewrite cleanOldRequests_keeps, filter_In. intros [_ Hlt].
  now apply Z.ltb_lt.
Qed.

(** C6. [canMakeRequest()] drops exactly the timestamps [t] with
    [now - t >= windowMs], keeps the others in their order, and answers
    [true] iff fewer than [maxRequests] timestamps are left. With
    [maxRequests = 3] and [windowMs = 1000], three [recordRequest()] calls
    at time 0 make it answer [false] at time 500 and [true] at time 1001,
    whether or not it was asked at time 500 in between. *)
Theorem canMakeRequest_sliding_window :
  (forall now s sl,
      let r := canMakeRequest now s sl in
      requests (fst (snd r)) =
        filter (fun t => negb (now - t >=? windowMs s)) (requests s) /\
      (forall t, In t (requests (fst (snd r))) <->
                 In t (requests s) /\ ~ now - t >= windowMs s) /\
      (fst r = true <->
       Z.of_nat (List.length (requests (fst (snd r)))) < maxRequests s)) /\
  (let cfg := {| cfg_requests := 3; cfg_window := 1000 |} in
   let '(s0, sl0) := new cfg 0 empty_slot in
   let '(s1, sl1) := recordRequest 0 s0 sl0 in
   let '(s2, sl2) := recordRequest 0 s1 sl1 in
   let '(s3, sl3) := recordRequest 0 s2 sl2 in
   let '(at500, (s4, sl4)) := canMakeRequest 500 s3 sl3 in
   let '(at1001, (s5, _)) := canMakeRequest 1001 s4 sl4 in
   requests s3 = [0; 0; 0] /\ at500 = false /\ requests s4 = [0; 0; 0] /\
   at1001 = true /\ requests s5 = [] /\
   fst (canMakeRequest 1001 s3 sl3) = true).
Proof.
  split.
  - intros now s sl r.
    assert (Hf : requests (fst (snd r)) =
                 filter (fun t => negb (now - t >=? windowMs s)) (requests s)).
    { subst r. cbn [canMakeRequest snd]. rewrite cleanOldRequests_keeps.
      apply filter_ext. intros t.
      rewrite Z.geb_leb, <- Z.ltb_antisym. reflexivity. }
    split; [exact Hf | split].
    + intros t. rewrite Hf, filter_In, negb_true_iff.
      rewrite Z.geb_leb, Z.leb_gt. intuition lia.
    + subst r. cbn [canMakeRequest fst snd].
      destruct (cleanOldRequests_config now s sl) as [-> _].
      apply Z.ltb_lt.
  - vm_compute. repeat split.
Qed.

Lemma fold_min_le (l : list Z) : forall a,
  fold_left Z.min l a <= a /\ forall t, In t l -> fold_left Z.min l a <= t.
Proof.
  induction l as [|x l IH]; intros a; simpl.
  - split; [lia | contradiction].
  - destruct (IH (Z.min a x)) as [Ha Hl]. split; [lia|].
    intros t [<-|Ht]; [lia | now apply Hl].
Qed.

Lemma Math_min_le xs t : In t xs -> Math_min xs <= t.
Proof.
  destruct xs as [|x rest]; [contradiction|]. simpl.
  destruct (fold_min_le rest x) as [Hx Hr].
  intros [<-|Ht]; [exact Hx | now apply Hr].
Qed.

(** One stale timestamp in the array is enough for [getTimeUntilReset()]
    to answer 0, whatever else the array holds. *)
Lemma getTimeUntilReset_stale now s t :
  In t (requests s) -> now - t >= windowMs s -> getTimeUntilReset now s = 0.
Proof.
  intros Hin Hstale. unfold getTimeUntilReset.
  destruct (requests s) as [|x rest] eqn:E; [reflexivity|].
  rewrite <- E in *. pose proof (Math_min_le (requests s) t Hin). lia.
Qed.

(** Right after a pruning the answer is the one the specification
    describes. *)
Lemma getTimeUntilReset_after_pruning now s sl :
  (forall t, In t (requests s) -> now - t < windowMs s) ->
  fst (getTimeUntilReset_pruning now s sl) = getTimeUntilReset now s.
Proof.
  intros Hall. unfold getTimeUntilReset_pruning, getTimeUntilReset. cbn [fst].
  rewrite cleanOldRequests_keeps.
  destruct (cleanOldRequests_config now s sl) as [_ ->].
  assert (E : filter (fun t => now - t <? windowMs s) (requests s) = requests s).
  { induction (requests s) as [|x l IH]; simpl; [reflexivity|].
    assert (Hx : (now - x <? windowMs s) = true)
      by (apply Z.ltb_lt, Hall; now left).
    rewrite Hx. f_equal. apply IH. intros t Ht. apply Hall. now right. }
  now rewrite E.
Qed.

(** C3. [getTimeUntilReset()] does not prune. From a fresh limiter with
    [maxRequests = 3] and [windowMs = 1000], requests recorded at times 0
    and 900 leave [[0; 900]]; at time 1500 the first is stale and the
    second is in the window. The code answers from the stale one, 0; the
    pruning reading of the specification answers 400. *)
Theorem getTimeUntilReset_answers_from_stale_timestamp :
  let cfg := {| cfg_requests := 3; cfg_window := 1000 |} in
  let '(s0, sl0) := new cfg 0 empty_slot in
  let '(s1, sl1) := recordRequest 0 s0 sl0 in
  let '(s2, sl2) := recordRequest 900 s1 sl1 in
  requests s2 = [0; 900] /\
  requests (fst (cleanOldRequests 1500 s2 sl2)) = [900] /\
  getTimeUntilReset 1500 s2 = 0 /\
  fst (getTimeUntilReset_pruning 1500 s2 sl2) = 400.
Proof. vm_compute. repeat split. Qed.

End RateLimiterFacts.

(** * Properties of the string helpers *)

Lemma startsWith_append p s : startsWith p (p ++ s)%string = true.
Proof.
  unfold startsWith. induction p as [|a p IH]; simpl.
  - destruct s; reflexivity.
  - destruct (ascii_dec a a); [exact IH | congruence].
Qed.

Lemma startsWith_drop p : forall k,
  startsWith p k = true -> (p ++ drop (String.length p) k)%string = k.
Proof.
  unfold startsWith. induction p as [|a p IH]; intros k Hk.
  - reflexivity.
  - destruct k as [|b k]; simpl in Hk; [discriminate|].
    destruct (ascii_dec a b) as [->|]; [|discriminate].
    simpl. f_equal. now apply IH.
Qed.

Lemma startsWith_extend q : forall p s,
  startsWith q p = true -> startsWith q (p ++ s)%string = true.
Proof.
  unfold startsWith. induction q as [|a q IH]; intros p s Hq.
  - destruct (p ++ s)%string; reflexivity.
  - destruct p as [|b p]; simpl in Hq; [discriminate|].
    simpl. destruct (ascii_dec a b); [now apply IH | discriminate].
Qed.

Lemma includes_extend q : forall p s,
  includes q p = true -> includes q (p ++ s)%string = true.
Proof.
  induction p as [|b p IH]; intros s Hq.
  - simpl in Hq. rewrite orb_false_r in Hq.
    unfold startsWith in Hq. destruct q; [|discriminate].
    destruct s; reflexivity.
  - simpl in Hq. apply orb_true_iff in Hq as [Hq|Hq].
    + change (String b p ++ s)%string with (String b (p ++ s)%string).
      cbn [includes]. apply orb_true_iff. left.
      now apply (startsWith_extend q (String b p) s).
    + change (String b p ++ s)%string with (String b (p ++ s)%string).
      cbn [includes]. apply orb_true_iff. right. now apply IH.
Qed.

(** A pattern found in the prefix is found in every key that starts with
    the prefix. *)
Lemma includes_prefixed q p k :
  includes q p = true -> startsWith p k = true -> includes q k = true.
Proof.
  intros Hq Hk. rewrite <- (startsWith_drop p k Hk). now apply includes_extend.
Qed.

Lemma append_inj_l p : forall a b, (p ++ a)%string = (p ++ b)%string -> a = b.
Proof.
  induction p as [|c p IH]; intros a b E; simpl in E.
  - exact E.
  - injection E as E. now apply IH.
Qed.

(** [key.replace(prefix, '')] undoes the prefixing of a cache key. *)
Lemma replace_prefix_key p k :
  startsWith p k = true -> (p ++ replace_prefix p k)%string = k.
Proof.
  intros Hk. unfold replace_prefix. rewrite Hk. now apply startsWith_drop.
Qed.

(** * Properties of the sort *)

Section SortFacts.
Context {A : Type} (cmp : A -> A -> Z).

Lemma insert_by_perm x l : Permutation (x :: l) (insert_by cmp x l).
Proof.
  induction l as [|y l IH]; simpl.
  - apply Permutation_refl.
  - destruct (cmp x y <=? 0).
    + apply Permutation_refl.
    + eapply perm_trans; [apply perm_swap|]. now apply perm_skip.
Qed.

Lemma sort_by_perm l : Permutation l (sort_by cmp l).
Proof.
  induction l as [|x l IH]; simpl.
  - apply perm_nil.
  - eapply perm_trans; [apply perm_skip, IH | apply insert_by_perm].
Qed.

Lemma sort_by_In l x : In x (sort_by cmp l) <-> In x l.
Proof.
  split; intros Hx.
  - eapply Permutation_in; [apply Permutation_sym, sort_by_perm | exact Hx].
  - eapply Permutation_in; [apply sort_by_perm | exact Hx].
Qed.

Hypothesis cmp_total : forall x y, cmp x y <= 0 \/ cmp y x <= 0.
Hypothesis cmp_trans : forall x y z, cmp x y <= 0 -> cmp y z <= 0 -> cmp x z <= 0.

Lemma insert_by_sorted x l :
  StronglySorted (before cmp) l -> StronglySorted (before cmp) (insert_by cmp x l).
Proof.
  induction 1 as [|y l Hs IH Hy]; simpl.
  - constructor; [constructor | constructor].
  - destruct (Z.leb_spec (cmp x y) 0) as [Hxy|Hxy].
    + constructor; [now constructor|].
      constructor; [exact Hxy|].
      rewrite Forall_forall in *. intros z Hz.
      eapply cmp_trans; [exact Hxy | now apply Hy].
    + constructor; [exact IH|].
      rewrite Forall_forall in *. intros z Hz.
      apply (Permutation_in _ (Permutation_sym (insert_by_perm x l))) in Hz.
      destruct Hz as [<-|Hz]; [|now apply Hy].
      destruct (cmp_total y x) as [Hyx|Hyx]; [exact Hyx | lia].
Qed.

Lemma sort_by_sorted l : StronglySorted (before cmp) (sort_by cmp l).
Proof.
  induction l as [|x l IH]; simpl.
  - constructor.
  - now apply insert_by_sorted.
Qed.

End SortFacts.

(** * Properties of the storage operations *)

Section StorageFacts.
Context {Data : Type} `{Browser Data}.

Lemma removeItem_length k (st : Store Data) :
  (List.length (removeItem k st) <= List.length st)%nat.
Proof. apply filter_length_le. Qed.

Lemma removeItem_In k (st : Store Data) kv :
  In kv (removeItem k st) <-> In kv st /\ fst kv <> k.
Proof.
  unfold removeItem. rewrite filter_In, negb_true_iff, String.eqb_neq.
  intuition congruence.
Qed.

Lemma getItem_removeItem_same k (st : Store Data) :
  getItem k (removeItem k st) = None.
Proof.
  induction st as [|[k' v] st IH]; simpl; [reflexivity|].
  destruct (String.eqb_spec k k') as [->|Hne]; simpl.
  - exact IH.
  - destruct (String.eqb_spec k k'); [contradiction | exact IH].
Qed.

Lemma getItem_removeItem_other k k' (st : Store Data) :
  k <> k' -> getItem k' (removeItem k st) = getItem k' st.
Proof.
  intros Hne. induction st as [|[k0 v] st IH]; simpl; [reflexivity|].
  destruct (String.eqb_spec k k0) as [->|Hk0]; simpl.
  - destruct (String.eqb_spec k' k0); [congruence | exact IH].
  - now rewrite IH.
Qed.

Lemma getItem_In k v (st : Store Data) : getItem k st = Some v -> In (k, v) st.
Proof.
  induction st as [|[k' v'] st IH]; simpl; [discriminate|].
  destruct (String.eqb_spec k k') as [->|Hne].
  - intros [= ->]. now left.
  - intros Hg. right. now apply IH.
Qed.

Lemma getItem_None k (st : Store Data) :
  getItem k st = None <-> ~ In k (map fst st).
Proof.
  induction st as [|[k' v'] st IH]; simpl.
  - intuition.
  - destruct (String.eqb_spec k k') as [->|Hne].
    + split; [discriminate | intros Hn; exfalso; apply Hn; now left].
    + rewrite IH. intuition congruence.
Qed.

Lemma distinct_getItem k v (st : Store Data) :
  distinct_keys st -> In (k, v) st -> getItem k st = Some v.
Proof.
  unfold distinct_keys. induction st as [|[k' v'] st IH]; simpl; [contradiction|].
  intros Hnd [Hin|Hin].
  - injection Hin as -> ->. now rewrite String.eqb_refl.
  - inversion Hnd as [|? ? Hnot Hnd']; subst.
    destruct (String.eqb_spec k k') as [->|Hne].
    + exfalso. apply Hnot. change k' with (fst (k', v)). now apply in_map.
    + now apply IH.
Qed.

Lemma distinct_filter f (st : Store Data) :
  distinct_keys st -> distinct_keys (filter f st).
Proof.
  unfold distinct_keys. induction st as [|kv st IH]; simpl; intros Hnd; [exact Hnd|].
  inversion Hnd as [|? ? Hnot Hnd']; subst.
  destruct (f kv); simpl; [|now apply IH].
  constructor; [|now apply IH].
  intros Hin. apply Hnot. apply in_map_iff in Hin as [kv' [E Hin]].
  apply filter_In in Hin as [Hin _]. rewrite <- E. now apply in_map.
Qed.

Lemma distinct_removeItem k (st : Store Data) :
  distinct_keys st -> distinct_keys (removeItem k st).
Proof. apply distinct_filter. Qed.

Lemma putItem_keys k v (st : Store Data) :
  map fst (putItem k v st) =
  if existsb (String.eqb k) (map fst st) then map fst st else map fst st ++ [k].
Proof.
  induction st as [|[k' v'] st IH]; simpl; [reflexivity|].
  destruct (String.eqb_spec k k') as [->|Hne]; simpl; [reflexivity|].
  rewrite IH. now destruct (existsb (String.eqb k) (map fst st)).
Qed.

(** An accepted write keeps the keys distinct. *)
Lemma distinct_putItem k v (st : Store Data) :
  distinct_keys st -> distinct_keys (putItem k v st).
Proof.
  unfold distinct_keys. rewrite putItem_keys. intros Hnd.
  destruct (existsb (String.eqb k) (map fst st)) eqn:E; [exact Hnd|].
  apply NoDup_app; [exact Hnd | repeat constructor; intros [] | ].
  intros x Hx [<-|[]].
  assert (existsb (String.eqb k) (map fst st) = true); [|congruence].
  apply existsb_exists. exists k. split; [exact Hx | apply String.eqb_refl].
Qed.

Lemma getItem_putItem_same k v (st : Store Data) : getItem k (putItem k v st) = Some v.
Proof.
  induction st as [|[k' v'] st IH]; simpl.
  - now rewrite String.eqb_refl.
  - destruct (String.eqb_spec k k') as [->|Hne]; simpl.
    + now rewrite String.eqb_refl.
    + destruct (String.eqb_spec k k'); [contradiction | exact IH].
Qed.

Lemma filter_twice {A} (f g : A -> bool) (l : list A) :
  filter f (filter g l) = filter (fun x => g x && f x) l.
Proof.
  induction l as [|x l IH]; simpl; [reflexivity|].
  destruct (g x); simpl; [|exact IH].
  destruct (f x); now rewrite IH.
Qed.

Lemma remove_keys_filter keys : forall st : Store Data,
  remove_keys keys st =
  filter (fun kv => negb (existsb (String.eqb (fst kv)) keys)) st.
Proof.
  unfold remove_keys. induction keys as [|k keys IH]; intros st; simpl.
  - symmetry. apply filter_true.
  - rewrite IH. unfold removeItem. rewrite filter_twice.
    apply filter_ext. intros [k' v]. simpl.
    rewrite (String.eqb_sym k k').
    now destruct (String.eqb k' k).
Qed.

Lemma remove_keys_In keys (st : Store Data) kv :
  In kv (remove_keys keys st) <-> In kv st /\ ~ In (fst kv) keys.
Proof.
  rewrite remove_keys_filter, filter_In, negb_true_iff.
  split; intros [Hin Hk]; split; try exact Hin.
  - intros Hk'. assert (existsb (String.eqb (fst kv)) keys = true); [|congruence].
    apply existsb_exists. exists (fst kv). split; [exact Hk' | apply String.eqb_refl].
  - destruct (existsb (String.eqb (fst kv)) keys) eqn:E; [|reflexivity].
    apply existsb_exists in E as [x [Hx E]]. apply String.eqb_eq in E. subst x.
    contradiction.
Qed.

Lemma distinct_remove_keys keys (st : Store Data) :
  distinct_keys st -> distinct_keys (remove_keys keys st).
Proof. rewrite remove_keys_filter. apply distinct_filter. Qed.

Lemma getItem_remove_keys keys k (st : Store Data) :
  distinct_keys st ->
  getItem k (remove_keys keys st) =
  if existsb (String.eqb k) keys then None else getItem k st.
Proof.
  intros Hnd. destruct (existsb (String.eqb k) keys) eqn:E.
  - apply getItem_None. intros Hin. apply in_map_iff in Hin as [kv [<- Hin]].
    apply remove_keys_In in Hin as [_ Hn]. apply Hn.
    apply existsb_exists in E as [x [Hx E]]. apply String.eqb_eq in E. now subst x.
  - destruct (getItem k st) as [v|] eqn:G.
    + apply distinct_getItem; [now apply distinct_remove_keys|].
      apply remove_keys_In. split; [now apply getItem_In|]. simpl.
      intros Hin. assert (existsb (String.eqb k) keys = true); [|congruence].
      apply existsb_exists. exists k. split; [exact Hin | apply String.eqb_refl].
    + apply getItem_None. intros Hin. apply getItem_None in G. apply G.
      apply in_map_iff in Hin as [kv [<- Hin]].
      apply remove_keys_In in Hin as [Hin _]. now apply in_map.
Qed.

(** The same without the assumption on the keys: the first pair of a key
    stays the first one when other keys are removed. *)
Lemma getItem_after_removal keys k (st : Store Data) :
  getItem k (remove_keys keys st) =
  if existsb (String.eqb k) keys then None else getItem k st.
Proof.
  rewrite remove_keys_filter.
  induction st as [|[k' v] st IH]; cbn [filter getItem fst].
  - now destruct (existsb (String.eqb k) keys).
  - destruct (String.eqb_spec k k') as [->|Hne].
    + destruct (existsb (String.eqb k') keys) eqn:E; cbn [negb getItem].
      * exact IH.
      * now rewrite String.eqb_refl.
    + destruct (existsb (String.eqb k') keys); cbn [negb getItem]; [exact IH|].
      destruct (String.eqb_spec k k'); [contradiction | exact IH].
Qed.

Lemma fold_remove_items m (its : list Item) : forall st : Store Data,
  fold_left (fun s item => removeItem (cachePrefix m ++ item_key item)%string s) its st =
  remove_keys (map (full_key m) its) st.
Proof.
  unfold remove_keys. induction its as [|it its IH]; intros st; simpl; [reflexivity|].
  apply IH.
Qed.

End StorageFacts.

(** * Properties of [getStorageInfo] *)

Section ScanFacts.
Context {Data : Type} `{Browser Data}.
Variable m : Manager.

Lemma sum_sizes_app l r : sum_sizes (l ++ r) = sum_sizes l + sum_sizes r.
Proof. induction l as [|x l IH]; simpl; [reflexivity | rewrite IH; lia]. Qed.

Lemma sum_sizes_perm l r : Permutation l r -> sum_sizes l = sum_sizes r.
Proof. induction 1; simpl; lia. Qed.

Lemma scan_step fuel i (st : Store Data) t c its :
  scan m (S fuel) i st t c its =
  match nth_error st i with
  | None => ((t, c, its), st)
  | Some (key, value) =>
      if is_cache_key m key then
        match value with
        | Entry cacheEntry =>
            let it := item_of m key cacheEntry in
            scan m fuel (S i) st (t + item_size it) (c + 1) (its ++ [it])
        | Text _ => scan m fuel (S i) (removeItem key st) t c its
        end
      else scan m fuel (S i) st t c its
  end.
Proof. reflexivity. Qed.

(** The loop ends by itself within [length st - i] steps: more fuel
    changes nothing, so [getStorageInfo] returns what the unbounded loop
    returns. *)
Lemma scan_fuel_enough fuel : forall i (st : Store Data) t c its,
  (List.length st <= i + fuel)%nat ->
  scan m (S fuel) i st t c its = scan m fuel i st t c its.
Proof.
  induction fuel as [|fuel IH]; intros i st t c its Hlen.
  - rewrite scan_step. simpl.
    assert (E : nth_error st i = None) by (apply nth_error_None; lia).
    now rewrite E.
  - rewrite (scan_step (S fuel) i st t c its), (scan_step fuel i st t c its).
    destruct (nth_error st i) as [[key value]|] eqn:E; [|reflexivity].
    assert (i < List.length st)%nat
      by (apply nth_error_Some; rewrite E; discriminate).
    destruct (is_cache_key m key); [destruct value|].
    + apply IH. lia.
    + apply IH. pose proof (removeItem_length key st). lia.
    + apply IH. lia.
Qed.

Lemma scan_more_fuel extra : forall fuel i (st : Store Data) t c its,
  (List.length st <= i + fuel)%nat ->
  scan m (extra + fuel) i st t c its = scan m fuel i st t c its.
Proof.
  induction extra as [|extra IH]; intros fuel i st t c its Hlen; [reflexivity|].
  simpl plus. rewrite scan_fuel_enough; [now apply IH | lia].
Qed.

Lemma skipn_nth_error {A} (l : list A) : forall i x,
  nth_error l i = Some x -> skipn i l = x :: skipn (S i) l.
Proof.
  induction l as [|a l IH]; intros [|i] x E; simpl in E; try discriminate.
  - now injection E as ->.
  - apply (IH i x E).
Qed.

(** On a store whose cache entries all parse, the loop changes nothing
    and lists every cache entry once, in store order. *)
Lemma scan_parseable fuel : forall i (st : Store Data) t c its,
  parseable m st ->
  (List.length st <= i + fuel)%nat ->
  scan m fuel i st t c its =
  ((t + sum_sizes (cache_items m (skipn i st)),
    c + Z.of_nat (List.length (cache_items m (skipn i st))),
    its ++ cache_items m (skipn i st)), st).
Proof.
  induction fuel as [|fuel IH]; intros i st t c its Hp Hlen.
  - rewrite skipn_all2 by lia. simpl. now rewrite !Z.add_0_r, app_nil_r.
  - rewrite scan_step.
    destruct (nth_error st i) as [[key value]|] eqn:E.
    + rewrite (skipn_nth_error st i _ E).
      assert (Hi : (i < List.length st)%nat)
        by (apply nth_error_Some; rewrite E; discriminate).
      cbn [cache_items flat_map fst snd].
      fold (cache_items m (skipn (S i) st)).
      destruct (is_cache_key m key) eqn:Hk; [destruct value as [e|raw]|].
      * cbv zeta. rewrite IH by (trivial; lia).
        cbn [app List.length sum_sizes fold_right].
        fold (sum_sizes (cache_items m (skipn (S i) st))).
        rewrite <- app_assoc. cbn [app].
        rewrite Nat2Z.inj_succ. f_equal. f_equal. f_equal; lia.
      * apply nth_error_In in E. apply Hp in E. congruence.
      * cbn [app]. apply IH; [exact Hp | lia].
    + apply nth_error_None in E. rewrite skipn_all2 by lia.
      simpl. now rewrite !Z.add_0_r, app_nil_r.
Qed.

Lemma getStorageInfo_parseable (st : Store Data) :
  parseable m st ->
  getStorageInfo m st =
  ({| totalSize := sum_sizes (cache_items m st);
      itemCount := Z.of_nat (List.length (cache_items m st));
      items := sort_by by_priority_desc (cache_items m st);
      maxSize := maxCacheSize m |}, st).
Proof.
  intros Hp. unfold getStorageInfo.
  rewrite scan_parseable by (trivial; lia). reflexivity.
Qed.

(** In general the loop removes some unparseable cache entries, and
    every item it lists is the item of a parseable cache entry. *)
Lemma scan_general fuel : forall i (st : Store Data) t c its,
  exists gone,
    snd (scan m fuel i st t c its) = remove_keys gone st /\
    (forall k, In k gone ->
               is_cache_key m k = true /\ exists raw, In (k, Text raw) st) /\
    (forall it, In it (snd (fst (scan m fuel i st t c its))) ->
                In it its \/
                exists k e, In (k, Entry e) st /\ is_cache_key m k = true /\
                            it = item_of m k e).
Proof.
  induction fuel as [|fuel IH]; intros i st t c its.
  - exists []. simpl. split; [reflexivity | split; [contradiction | now left]].
  - rewrite scan_step.
    destruct (nth_error st i) as [[key value]|] eqn:E.
    2:{ exists []. split; [reflexivity | split; [contradiction | now left]]. }
    apply nth_error_In in E.
    destruct (is_cache_key m key) eqn:Hk; [destruct value as [e|raw]|].
    + cbv zeta.
      destruct (IH (S i) st (t + item_size (item_of m key e)) (c + 1)
                   (its ++ [item_of m key e])) as [gone [Hs [Hg Hi]]].
      exists gone. split; [exact Hs | split; [exact Hg|]].
      intros it Hit. apply Hi in Hit as [Hit|Hit]; [|now right].
      apply in_app_or in Hit as [Hit|[<-|[]]]; [now left|].
      right. now exists key, e.
    + destruct (IH (S i) (removeItem key st) t c its) as [gone [Hs [Hg Hi]]].
      exists (key :: gone). split; [exact Hs | split].
      * intros k [<-|Hin]; [split; [exact Hk | now exists raw]|].
        destruct (Hg k Hin) as [Hck [raw' Hr]].
        split; [exact Hck | exists raw'].
        now apply removeItem_In in Hr as [Hr _].
      * intros it Hit. apply Hi in Hit as [Hit|[k [e [Hin [Hck ->]]]]]; [now left|].
        right. exists k, e. split; [|now split].
        now apply removeItem_In in Hin as [Hin _].
    + apply IH.
Qed.

(** Every listed item names a key of the store that holds an entry. *)
Lemma getStorageInfo_items (st : Store Data) it :
  In it (items (fst (getStorageInfo m st))) ->
  exists k e, In (k, Entry e) st /\ is_cache_key m k = true /\ it = item_of m k e.
Proof.
  unfold getStorageInfo.
  destruct (scan_general (List.length st) 0 st 0 0 []) as [gone [_ [_ Hi]]].
  destruct (scan m (List.length st) 0 st 0 0 []) as [[[t c] its] st'].
  simpl in *. intros Hit. apply sort_by_In in Hit.
  apply Hi in Hit as [[]|Hit]. exact Hit.
Qed.

(** It leaves the store as it was, up to unparseable cache entries. *)
Lemma getStorageInfo_store (st : Store Data) :
  exists gone,
    snd (getStorageInfo m st) = remove_keys gone st /\
    forall k, In k gone -> is_cache_key m k = true /\ exists raw, In (k, Text raw) st.
Proof.
  unfold getStorageInfo.
  destruct (scan_general (List.length st) 0 st 0 0 []) as [gone [Hs [Hg _]]].
  destruct (scan m (List.length st) 0 st 0 0 []) as [[[t c] its] st'].
  exists gone. now split.
Qed.

Lemma full_key_item_of k (e : CacheEntry Data) :
  is_cache_key m k = true -> full_key m (item_of m k e) = k.
Proof.
  unfold is_cache_key. intros Hk. apply andb_true_iff in Hk as [_ Hk].
  unfold full_key, item_of. cbn [item_key]. now apply replace_prefix_key.
Qed.

End ScanFacts.

(** * Properties of the eviction pass *)

Section EvictionFacts.
Context {Data : Type} `{Browser Data}.
Variable m : Manager.

Lemma by_removal_order_le a b : by_removal_order a b <= 0 <-> removal_le a b.
Proof.
  unfold by_removal_order, removal_le.
  destruct (Z.eqb_spec (item_priority a) (item_priority b)); simpl; lia.
Qed.

Lemma by_removal_order_total a b :
  by_removal_order a b <= 0 \/ by_removal_order b a <= 0.
Proof. rewrite !by_removal_order_le. unfold removal_le. lia. Qed.

Lemma by_removal_order_trans a b c :
  by_removal_order a b <= 0 -> by_removal_order b c <= 0 -> by_removal_order a c <= 0.
Proof. rewrite !by_removal_order_le. unfold removal_le. lia. Qed.

(** The removal loop takes the shortest front part of its list that
    frees enough, or the whole list when nothing frees enough. *)
Lemma evict_spec total : forall its freed (st : Store Data),
  exists removed kept,
    its = removed ++ kept /\
    evict m total its freed st =
      (freed + sum_sizes removed, remove_keys (map (full_key m) removed) st) /\
    (kept = [] \/ freed_enough m total (freed + sum_sizes removed) = true) /\
    (forall front last, removed = front ++ [last] ->
                        freed_enough m total (freed + sum_sizes front) = false).
Proof.
  induction its as [|item rest IH]; intros freed st.
  - exists [], []. simpl. rewrite Z.add_0_r.
    split; [reflexivity | split; [reflexivity | split; [now left|]]].
    intros [|? ?] ? E; discriminate.
  - simpl. destruct (freed_enough m total freed) eqn:E.
    + exists [], (item :: rest). simpl. rewrite Z.add_0_r.
      split; [reflexivity | split; [reflexivity | split; [now right|]]].
      intros [|? ?] ? E'; discriminate.
    + destruct (IH (freed + item_size item)
                   (removeItem (cachePrefix m ++ item_key item)%string st))
        as [removed [kept [-> [Hev [Hk Hmin]]]]].
      exists (item :: removed), kept. simpl.
      rewrite Z.add_assoc.
      split; [reflexivity | split; [exact Hev | split; [exact Hk|]]].
      intros [|a front] last E'; simpl in E'.
      * simpl. now rewrite Z.add_0_r.
      * injection E' as <- ->. simpl. rewrite Z.add_assoc.
        apply (Hmin front last eq_refl).
Qed.

Lemma cache_items_In (st : Store Data) it :
  In it (cache_items m st) <->
  exists k e, In (k, Entry e) st /\ is_cache_key m k = true /\ it = item_of m k e.
Proof.
  unfold cache_items. rewrite in_flat_map. split.
  - intros [[k v] [Hin Hit]]. simpl in Hit.
    destruct (is_cache_key m k) eqn:Hk; [|contradiction].
    destruct v as [e|raw]; [|contradiction].
    destruct Hit as [<-|[]]. now exists k, e.
  - intros [k [e [Hin [Hk ->]]]]. exists (k, Entry e). split; [exact Hin|].
    simpl. rewrite Hk. now left.
Qed.

Lemma cache_items_filter (f : string -> bool) (st : Store Data) :
  cache_items m (filter (fun kv => f (fst kv)) st) =
  filter (fun it => f (full_key m it)) (cache_items m st).
Proof.
  induction st as [|[k v] st IH]; [reflexivity|].
  cbn [filter fst]. 
  change (cache_items m ((k, v) :: st))
    with ((if is_cache_key m k then
             match v with Entry e => [item_of m k e] | Text _ => [] end
           else []) ++ cache_items m st).
  rewrite filter_app, <- IH.
  destruct (f k) eqn:Hf.
  - change (cache_items m ((k, v) :: filter (fun kv => f (fst kv)) st))
      with ((if is_cache_key m k then
               match v with Entry e => [item_of m k e] | Text _ => [] end
             else []) ++ cache_items m (filter (fun kv => f (fst kv)) st)).
    f_equal. destruct (is_cache_key m k) eqn:Hk; [|reflexivity].
    destruct v as [e|raw]; [|reflexivity].
    simpl. now rewrite (full_key_item_of m k e Hk), Hf.
  - destruct (is_cache_key m k) eqn:Hk; [|reflexivity].
    destruct v as [e|raw]; [|reflexivity].
    simpl. now rewrite (full_key_item_of m k e Hk), Hf.
Qed.

(** Distinct keys in the store give distinct keys among the items. *)
Lemma cache_items_distinct (st : Store Data) :
  distinct_keys st -> NoDup (map (full_key m) (cache_items m st)).
Proof.
  unfold distinct_keys. induction st as [|[k v] st IH]; intros Hnd; [constructor|].
  inversion Hnd as [|? ? Hnot Hnd']; subst.
  change (cache_items m ((k, v) :: st))
    with ((if is_cache_key m k then
             match v with Entry e => [item_of m k e] | Text _ => [] end
           else []) ++ cache_items m st).
  destruct (is_cache_key m k) eqn:Hk; [|now apply IH].
  destruct v as [e|raw]; [|now apply IH].
  simpl. rewrite (full_key_item_of m k e Hk). constructor; [|now apply IH].
  intros Hin. apply Hnot. apply in_map_iff in Hin as [it [E Hit]].
  apply cache_items_In in Hit as [k' [e' [Hin' [Hk' ->]]]].
  rewrite (full_key_item_of m k' e' Hk') in E. subst k'.
  change k with (fst (k, Entry e')). now apply in_map.
Qed.

Lemma filter_perm {A} (f : A -> bool) l r :
  Permutation l r -> Permutation (filter f l) (filter f r).
Proof.
  induction 1 as [|x l r _ IH|x y l|l r s _ IH1 _ IH2]; simpl.
  - constructor.
  - destruct (f x); [now constructor | exact IH].
  - destruct (f x), (f y); try apply Permutation_refl. apply perm_swap.
  - now apply perm_trans with (filter f r).
Qed.

Lemma filter_none {A} (f : A -> bool) l :
  (forall x, In x l -> f x = false) -> filter f l = [].
Proof.
  induction l as [|x l IH]; intros Hf; simpl; [reflexivity|].
  rewrite (Hf x) by now left. apply IH. intros y Hy. apply Hf. now right.
Qed.

Lemma filter_all {A} (f : A -> bool) l :
  (forall x, In x l -> f x = true) -> filter f l = l.
Proof.
  induction l as [|x l IH]; intros Hf; simpl; [reflexivity|].
  rewrite (Hf x) by now left. f_equal. apply IH. intros y Hy. apply Hf. now right.
Qed.

Lemma NoDup_app_disjoint {A} (l r : list A) x :
  NoDup (l ++ r) -> In x l -> In x r -> False.
Proof.
  induction l as [|a l IH]; intros Hnd Hl Hr; [contradiction|].
  simpl in Hnd. inversion Hnd as [|? ? Hnot Hnd']; subst.
  destruct Hl as [->|Hl].
  - apply Hnot, in_or_app. now right.
  - now apply IH.
Qed.

(** Removing the keys of a front part of the items leaves the rest. *)
Lemma cache_items_after_removal (st : Store Data) removed kept :
  distinct_keys st ->
  Permutation (cache_items m st) (removed ++ kept) ->
  Permutation
    (cache_items m (remove_keys (map (full_key m) removed) st)) kept.
Proof.
  intros Hnd Hperm.
  set (gone := map (full_key m) removed).
  rewrite remove_keys_filter.
  rewrite (cache_items_filter (fun k => negb (existsb (String.eqb k) gone))).
  eapply perm_trans; [apply filter_perm, Hperm|].
  rewrite filter_app.
  assert (Hnd' : NoDup (map (full_key m) (removed ++ kept))).
  { eapply Permutation_NoDup; [apply Permutation_map, Hperm|].
    now apply cache_items_distinct. }
  rewrite filter_none, filter_all; [apply Permutation_refl | | ].
  - intros it Hit. apply negb_true_iff.
    destruct (existsb (String.eqb (full_key m it)) gone) eqn:E; [|reflexivity].
    apply existsb_exists in E as [k [Hk E]]. apply String.eqb_eq in E. subst k.
    exfalso. rewrite map_app in Hnd'.
    apply (NoDup_app_disjoint _ _ (full_key m it) Hnd'); [exact Hk|].
    now apply in_map.
  - intros it Hit. apply negb_false_iff. apply existsb_exists.
    exists (full_key m it). split; [now apply in_map | apply String.eqb_refl].
Qed.

Lemma putItem_In k v (st : Store Data) kv :
  In kv (putItem k v st) -> kv = (k, v) \/ In kv st.
Proof.
  induction st as [|[k' v'] st IH]; simpl.
  - intros [<-|[]]. now left.
  - destruct (String.eqb k k').
    + intros [<-|Hin]; [now left | right; now right].
    + intros [<-|Hin]; [right; now left|].
      destruct (IH Hin) as [->|Hin']; [now left | right; now right].
Qed.

Lemma parseable_putItem k e (st : Store Data) :
  parseable m st -> parseable m (putItem k (Entry e) st).
Proof.
  intros Hp k' raw Hin. apply putItem_In in Hin as [E|Hin]; [discriminate|].
  now apply (Hp k' raw).
Qed.

Lemma parseable_remove_keys keys (st : Store Data) :
  parseable m st -> parseable m (remove_keys keys st).
Proof.
  intros Hp k raw Hin. apply remove_keys_In in Hin as [Hin _]. now apply (Hp k raw).
Qed.

(** What [enforceStorageLimit] does to a store over budget whose cache
    entries all parse. *)
Lemma enforceStorageLimit_over_budget (st : Store Data) :
  0 <= maxCacheSize m ->
  distinct_keys st ->
  parseable m st ->
  maxCacheSize m < sum_sizes (cache_items m st) ->
  exists removed kept,
    sort_by by_removal_order (sort_by by_priority_desc (cache_items m st)) =
      removed ++ kept /\
    enforceStorageLimit m st = remove_keys (map (full_key m) removed) st /\
    (forall front last,
        removed = front ++ [last] ->
        4 * maxCacheSize m < 5 * (sum_sizes (cache_items m st) - sum_sizes front)) /\
    Permutation (cache_items m (enforceStorageLimit m st)) kept /\
    5 * sum_sizes (cache_items m (enforceStorageLimit m st)) <= 4 * maxCacheSize m.
Proof.
  intros HB Hnd Hp Hover.
  unfold enforceStorageLimit. rewrite (getStorageInfo_parseable m st Hp).
  cbn [totalSize items].
  destruct (Z.leb_spec (sum_sizes (cache_items m st)) (maxCacheSize m)) as [Hle|_];
    [lia|].
  set (total := sum_sizes (cache_items m st)) in *.
  set (candidates := sort_by by_removal_order
                       (sort_by by_priority_desc (cache_items m st))).
  destruct (evict_spec total candidates 0 st)
    as [removed [kept [Hsplit [Hev [Hdone Hmin]]]]].
  exists removed, kept. rewrite Hev. cbn [snd].
  assert (Hperm : Permutation (cache_items m st) (removed ++ kept)).
  { rewrite <- Hsplit. unfold candidates.
    eapply perm_trans; apply sort_by_perm. }
  assert (Hrest : Permutation
                    (cache_items m (remove_keys (map (full_key m) removed) st)) kept)
    by now apply cache_items_after_removal.
  assert (Htotal : total = sum_sizes removed + sum_sizes kept).
  { unfold total. rewrite (sum_sizes_perm _ _ Hperm). apply sum_sizes_app. }
  clearbody total.
  repeat split; trivial.
  - intros front last E. specialize (Hmin front last E).
    unfold freed_enough in Hmin. apply Z.leb_gt in Hmin. lia.
  - rewrite (sum_sizes_perm _ _ Hrest).
    destruct Hdone as [->|Hdone]; [cbn [sum_sizes fold_right]; lia|].
    unfold freed_enough in Hdone. apply Z.leb_le in Hdone. lia.
Qed.

End EvictionFacts.

(** * Properties of [set], [get] and [clearCache] *)

Section CacheFacts.
Context {Data : Type} `{Browser Data}.
Variable m : Manager.

(** What the object literal of [set] holds when its evaluation
    completes, and what the evaluation leaves untouched. *)
Lemma make_entry_normal key d options (w : World Data) e w1 :
  make_entry m key d options w = (Normal e, w1) ->
  json_bytes d = Some (size e) /\
  data e = d /\
  timestamp e = clock w (reads w) /\
  expires e = match truthyZ (opt_expires options) with
              | Some x => x
              | None => clock w (S (reads w)) + orZ (opt_ttl options) 3600000
              end /\
  priority e = orZ (opt_priority options) (getCachePriority m key) /\
  lastAccessed e = None /\
  storage w1 = storage w /\
  setItem_calls w1 = setItem_calls w.
Proof.
  unfold make_entry, bind, Date_now, calculateSize, ret, throw.
  destruct (truthyZ (opt_expires options)); cbn;
    destruct (json_bytes d); intros E; inversion E; subst; cbn;
    repeat split; reflexivity.
Qed.

(** A payload that [JSON.stringify] rejects makes the literal throw,
    before the [try] block of [set] is entered. *)
Lemma make_entry_throws key d options (w : World Data) :
  json_bytes d = None ->
  fst (make_entry m key d options w) = Throw /\
  storage (snd (make_entry m key d options w)) = storage w.
Proof.
  intros Hj. unfold make_entry, bind, Date_now, calculateSize, ret, throw.
  destruct (truthyZ (opt_expires options)); cbn; rewrite Hj; cbn; now split.
Qed.

Lemma set_throws key d options (w : World Data) :
  json_bytes d = None ->
  fst (set m key d options w) = Throw /\
  storage (snd (set m key d options w)) = storage w /\
  setItem_calls (snd (set m key d options w)) = setItem_calls w.
Proof.
  intros Hj. unfold set, bind.
  unfold make_entry, bind, Date_now, calculateSize, ret, throw.
  destruct (truthyZ (opt_expires options)); cbn; rewrite Hj; cbn; repeat split.
Qed.

(** The first write is accepted: [set] runs the eviction pass and
    returns [true]. *)
Lemma set_written key d options (w : World Data) e w1 :
  make_entry m key d options w = (Normal e, w1) ->
  setItem_ok (storage w1) (cachePrefix m ++ key)%string (Entry e) = true ->
  set m key d options w =
  (Normal true,
   {| storage := enforceStorageLimit m
                   (putItem (cachePrefix m ++ key)%string (Entry e) (storage w1));
      clock := clock w1; reads := reads w1;
      setItem_calls := ((cachePrefix m ++ key)%string, true) :: setItem_calls w1 |}).
Proof.
  intros Hm Hok. destruct (make_entry_normal _ _ _ _ _ _ Hm) as (Hj & Hd & _).
  unfold set, bind. rewrite Hm.
  unfold try_catch, bind, JSON_stringify. rewrite Hd, Hj.
  unfold ret, localStorage_setItem. rewrite Hok.
  reflexivity.
Qed.

(** The first write is refused: [set] sweeps the low priorities, tries
    once more and reports how the second write went. *)
Lemma set_refused key d options (w : World Data) e w1 :
  make_entry m key d options w = (Normal e, w1) ->
  setItem_ok (storage w1) (cachePrefix m ++ key)%string (Entry e) = false ->
  let k := (cachePrefix m ++ key)%string in
  let swept := clearLowPriorityCache m (storage w1) in
  set m key d options w =
  if setItem_ok swept k (Entry e)
  then (Normal true,
        {| storage := putItem k (Entry e) swept;
           clock := clock w1; reads := reads w1;
           setItem_calls := (k, true) :: (k, false) :: setItem_calls w1 |})
  else (Normal false,
        {| storage := swept;
           clock := clock w1; reads := reads w1;
           setItem_calls := (k, false) :: (k, false) :: setItem_calls w1 |}).
Proof.
  intros Hm Hok k swept. destruct (make_entry_normal _ _ _ _ _ _ Hm) as (Hj & Hd & _).
  unfold set, bind. rewrite Hm.
  unfold try_catch, bind, JSON_stringify. rewrite Hd, Hj.
  unfold ret, localStorage_setItem. rewrite Hok.
  unfold on_storage. cbn [storage clock reads setItem_calls].
  fold swept. fold k. destruct (setItem_ok swept k (Entry e)); reflexivity.
Qed.

(** The sweep of [clearLowPriorityCache] removes cache keys only, and
    only those that hold a priority below 50 or fail to parse. *)
Lemma clearLowPriorityCache_removes (st : Store Data) :
  exists gone,
    clearLowPriorityCache m st = remove_keys gone st /\
    forall k, In k gone ->
              is_cache_key m k = true /\
              exists v, In (k, v) st /\
                        match v with
                        | Entry e => priority e < 50
                        | Text _ => True
                        end.
Proof.
  unfold clearLowPriorityCache.
  destruct (getStorageInfo_store m st) as [gone1 [Hs Hg]].
  pose proof (getStorageInfo_items m st) as Hi.
  destruct (getStorageInfo m st) as [info st1]. cbn [fst snd] in *. subst st1.
  rewrite fold_remove_items.
  set (low := filter (fun item => item_priority item <? 50) (items info)).
  exists (gone1 ++ map (full_key m) low). split.
  - unfold remove_keys. now rewrite fold_left_app.
  - intros k Hk. apply in_app_or in Hk as [Hk|Hk].
    + destruct (Hg k Hk) as [Hck [raw Hr]]. split; [exact Hck|].
      now exists (Text raw).
    + apply in_map_iff in Hk as [it [<- Hit]].
      apply filter_In in Hit as [Hit Hlow]. apply Z.ltb_lt in Hlow.
      destruct (Hi it Hit) as [k [e [Hin [Hck ->]]]].
      rewrite (full_key_item_of m k e Hck). split; [exact Hck|].
      now exists (Entry e).
Qed.

Lemma clearLowPriorityCache_getItem (st : Store Data) k v :
  distinct_keys st ->
  getItem k st = Some v ->
  getItem k (clearLowPriorityCache m st) = Some v \/
  (getItem k (clearLowPriorityCache m st) = None /\
   is_cache_key m k = true /\
   match v with
   | Entry e => priority e < 50
   | Text _ => True
   end).
Proof.
  intros Hnd Hg. destruct (clearLowPriorityCache_removes st) as [gone [-> Hgone]].
  rewrite (getItem_remove_keys gone k st Hnd).
  destruct (existsb (String.eqb k) gone) eqn:E; [right | now left].
  apply existsb_exists in E as [k' [Hk' E]]. apply String.eqb_eq in E. subst k'.
  destruct (Hgone k Hk') as [Hck [v' [Hin Hv]]].
  rewrite (distinct_getItem k v' st Hnd Hin) in Hg. injection Hg as ->.
  now repeat split.
Qed.

Lemma clearLowPriorityCache_keeps (st : Store Data) k v :
  distinct_keys st ->
  getItem k (clearLowPriorityCache m st) = Some v -> getItem k st = Some v.
Proof.
  intros Hnd. destruct (clearLowPriorityCache_removes st) as [gone [-> _]].
  rewrite (getItem_remove_keys gone k st Hnd).
  now destruct (existsb (String.eqb k) gone).
Qed.

(** [enforceStorageLimit] only removes keys. *)
Lemma enforceStorageLimit_removes (st : Store Data) :
  exists gone, enforceStorageLimit m st = remove_keys gone st.
Proof.
  unfold enforceStorageLimit.
  destruct (getStorageInfo_store m st) as [gone1 [Hs _]].
  destruct (getStorageInfo m st) as [info st1]. cbn [snd] in Hs. subst st1.
  destruct (totalSize info <=? maxCacheSize m); [now exists gone1|].
  destruct (evict_spec m (totalSize info)
              (sort_by by_removal_order (items info)) 0 (remove_keys gone1 st))
    as [removed [kept [_ [-> _]]]].
  exists (gone1 ++ map (full_key m) removed). cbn [snd].
  unfold remove_keys. now rewrite fold_left_app.
Qed.

(** The keys of the store stay distinct through [set]. *)
Lemma set_keeps_keys_distinct key d options (w : World Data) :
  distinct_keys (storage w) ->
  distinct_keys (storage (snd (set m key d options w))).
Proof.
  intros Hnd.
  destruct (make_entry m key d options w) as [[e|] w1] eqn:Hm.
  - destruct (make_entry_normal _ _ _ _ _ _ Hm) as (_ & _ & _ & _ & _ & _ & Hst & _).
    destruct (setItem_ok (storage w1) (cachePrefix m ++ key)%string (Entry e)) eqn:Hok.
    + rewrite (set_written key d options w e w1 Hm Hok). cbn [snd storage].
      destruct (enforceStorageLimit_removes
                  (putItem (cachePrefix m ++ key)%string (Entry e) (storage w1)))
        as [gone ->].
      apply distinct_remove_keys, distinct_putItem. now rewrite Hst.
    + rewrite (set_refused key d options w e w1 Hm Hok).
      destruct (clearLowPriorityCache_removes (storage w1)) as [gone [Hsw _]].
      cbv zeta. rewrite Hsw, Hst.
      destruct (setItem_ok (remove_keys gone (storage w)) _ _); cbn [snd storage].
      * now apply distinct_putItem, distinct_remove_keys.
      * now apply distinct_remove_keys.
  - unfold set, bind. rewrite Hm. cbn [snd].
    revert Hm. unfold make_entry, bind, Date_now, calculateSize, ret, throw.
    destruct (truthyZ (opt_expires options)); cbn;
      destruct (json_bytes d); intros E; inversion E; subst; exact Hnd.
Qed.

(** The entry of the object literal is the entry [set] stores: at the
    first attempt, at the retry, and whenever the call returns [true] with
    the key still stored. *)
Lemma set_stores_entry key d options (w : World Data) e w1 :
  let k := (cachePrefix m ++ key)%string in
  let swept := clearLowPriorityCache m (storage w) in
  let result := set m key d options w in
  let after := storage (snd result) in
  make_entry m key d options w = (Normal e, w1) ->
  (setItem_ok (storage w) k (Entry e) = true ->
   fst result = Normal true /\
   after = enforceStorageLimit m (putItem k (Entry e) (storage w))) /\
  (setItem_ok (storage w) k (Entry e) = false ->
   setItem_ok swept k (Entry e) = true ->
   fst result = Normal true /\ after = putItem k (Entry e) swept) /\
  (fst result = Normal true ->
   forall v, getItem k after = Some v -> v = Entry e).
Proof.
  intros k swept result after Hm.
  destruct (make_entry_normal _ _ _ _ _ _ Hm) as (_ & _ & _ & _ & _ & _ & Hst & _).
  assert (Hfirst := set_written key d options w e w1 Hm).
  assert (Hretry := set_refused key d options w e w1 Hm).
  rewrite Hst in Hfirst, Hretry. cbv zeta in Hretry.
  fold k in Hfirst, Hretry. fold swept in Hretry. fold result in Hfirst, Hretry.
  split; [|split].
  - intros Hok. unfold after. rewrite (Hfirst Hok). now split.
  - intros Hok Hok2. unfold after. rewrite (Hretry Hok), Hok2. now split.
  - intros Htrue v Hv. unfold after in Hv.
    destruct (setItem_ok (storage w) k (Entry e)) eqn:Hok.
    + rewrite (Hfirst eq_refl) in Hv. cbn [snd storage] in Hv.
      destruct (enforceStorageLimit_removes (putItem k (Entry e) (storage w)))
        as [gone Hgone].
      rewrite Hgone in Hv.
      rewrite getItem_after_removal in Hv.
      destruct (existsb (String.eqb k) gone); [discriminate|].
      rewrite getItem_putItem_same in Hv. congruence.
    + rewrite (Hretry eq_refl) in Hv, Htrue.
      destruct (setItem_ok swept k (Entry e)); cbn [fst snd storage] in Hv, Htrue.
      * rewrite getItem_putItem_same in Hv. congruence.
      * discriminate.
Qed.

(** On a store whose cache entries all parse, the sweep removes every
    cache entry of priority below 50. *)
Lemma clearLowPriorityCache_removes_low (st : Store Data) k e :
  parseable m st ->
  In (k, Entry e) st ->
  is_cache_key m k = true ->
  priority e < 50 ->
  getItem k (clearLowPriorityCache m st) = None.
Proof.
  intros Hp Hin Hck Hlow. unfold clearLowPriorityCache.
  rewrite (getStorageInfo_parseable m st Hp). cbn [items].
  rewrite fold_remove_items. apply getItem_None. intros Hk.
  apply in_map_iff in Hk as [kv [Ekv Hkv]].
  apply remove_keys_In in Hkv as [_ Hnot]. apply Hnot. rewrite Ekv.
  apply in_map_iff. exists (item_of m k e). split; [now apply full_key_item_of|].
  apply filter_In. split.
  - apply sort_by_In, cache_items_In. now exists k, e.
  - cbn [item_of item_priority]. now apply Z.ltb_lt.
Qed.

End CacheFacts.

(** * The claims about the cache *)

Section CacheClaims.
Context {Data : Type} `{Browser Data}.
Variable m : Manager.

Lemma sort_by_removal_sorted (l : list Item) :
  StronglySorted removal_le (sort_by by_removal_order l).
Proof.
  pose proof (sort_by_sorted by_removal_order
                by_removal_order_total by_removal_order_trans l) as Hs.
  induction Hs as [|x s Hs IH Hx]; constructor; [exact IH|].
  rewrite Forall_forall in *. intros y Hy. apply by_removal_order_le. now apply Hx.
Qed.

Lemma removal_split (l r : list Item) :
  StronglySorted removal_le (l ++ r) ->
  forall x y, In x l -> In y r -> removal_le x y.
Proof.
  induction l as [|a l IH]; intros Hs x y Hx Hy; [contradiction|].
  simpl in Hs. inversion Hs as [|? ? Hs' Ha]; subst.
  destruct Hx as [<-|Hx].
  - rewrite Forall_forall in Ha. apply Ha, in_or_app. now right.
  - now apply IH.
Qed.

(** C1, amended. When an accepted write leaves more than [maxCacheSize]
    bytes of cache entries (in a store with distinct keys whose cache
    entries all parse), [set] returns [true] after an eviction pass over
    the entries present after the write, the entry just written
    included. The pass sorts them by ascending (priority, lastAccessed),
    where [lastAccessed] falls back to the creation timestamp, and
    removes the shortest front part whose removal brings the total to
    four fifths of the budget or less: every removed entry is at or
    below every kept one in that order, removing one entry fewer would
    leave more than four fifths, and what [getStorageInfo] lists
    afterwards is the kept part, with a total of at most four fifths of
    the budget. *)
Theorem set_over_budget_evicts_lowest key d options (w : World Data) e w1 :
  let k := (cachePrefix m ++ key)%string in
  let written := putItem k (Entry e) (storage w) in
  let info := fst (getStorageInfo m written) in
  let candidates := sort_by by_removal_order (items info) in
  let final := storage (snd (set m key d options w)) in
  0 <= maxCacheSize m ->
  distinct_keys (storage w) ->
  parseable m (storage w) ->
  make_entry m key d options w = (Normal e, w1) ->
  setItem_ok (storage w) k (Entry e) = true ->
  maxCacheSize m < totalSize info ->
  fst (set m key d options w) = Normal true /\
  StronglySorted removal_le candidates /\
  exists removed kept,
    candidates = removed ++ kept /\
    final = remove_keys (map (full_key m) removed) written /\
    (forall r s, In r removed -> In s kept -> removal_le r s) /\
    (forall front last,
        removed = front ++ [last] ->
        4 * maxCacheSize m < 5 * (totalSize info - sum_sizes front)) /\
    Permutation (items (fst (getStorageInfo m final))) kept /\
    5 * totalSize (fst (getStorageInfo m final)) <= 4 * maxCacheSize m.
Proof.
  intros k written info candidates final HB Hnd Hp Hm Hok Hover.
  destruct (make_entry_normal m _ _ _ _ _ _ Hm) as (_ & _ & _ & _ & _ & _ & Hst & _).
  assert (Hset := set_written m key d options w e w1 Hm).
  rewrite Hst in Hset. specialize (Hset Hok). fold k in Hset. fold written in Hset.
  assert (Hpw : parseable m written) by now apply parseable_putItem.
  assert (Hdw : distinct_keys written) by now apply distinct_putItem.
  assert (Hinfo : info = {| totalSize := sum_sizes (cache_items m written);
                            itemCount := Z.of_nat (List.length (cache_items m written));
                            items := sort_by by_priority_desc (cache_items m written);
                            maxSize := maxCacheSize m |}).
  { unfold info. now rewrite (getStorageInfo_parseable m written Hpw). }
  assert (Hfinal : final = enforceStorageLimit m written).
  { unfold final. now rewrite Hset. }
  assert (Hover' : maxCacheSize m < sum_sizes (cache_items m written)).
  { rewrite Hinfo in Hover. exact Hover. }
  destruct (enforceStorageLimit_over_budget m written HB Hdw Hpw Hover')
    as [removed [kept (Hsplit & Henf & Hmin & Hrest & Hfit)]].
  assert (Hcand : candidates = removed ++ kept).
  { unfold candidates. rewrite Hinfo. exact Hsplit. }
  split; [now rewrite Hset|].
  split; [apply sort_by_removal_sorted|].
  exists removed, kept.
  assert (Hpf : parseable m final).
  { rewrite Hfinal, Henf. now apply parseable_remove_keys. }
  rewrite (getStorageInfo_parseable m final Hpf). cbn [fst items totalSize].
  split; [exact Hcand|].
  split; [now rewrite Hfinal|].
  split.
  { apply removal_split. rewrite <- Hcand. apply sort_by_removal_sorted. }
  split.
  { rewrite Hinfo. exact Hmin. }
  rewrite Hfinal. split; [|exact Hfit].
  eapply perm_trans; [apply Permutation_sym, sort_by_perm | exact Hrest].
Qed.


(** C5. When the key holds an entry and the clock reads a time after the
    entry's [expires], [get] returns [null], the key is removed from
    [localStorage] before [get] returns, and no item of a following
    [getStorageInfo()] carries the key. *)
Theorem get_expired_is_miss_and_delete key options (w : World Data) e :
  let k := (cachePrefix m ++ key)%string in
  let after := storage (snd (get m key options w)) in
  getItem k (storage w) = Some (Entry e) ->
  clock w (reads w) > expires e ->
  fst (get m key options w) = Normal None /\
  after = removeItem k (storage w) /\
  getItem k after = None /\
  forall it, In it (items (fst (getStorageInfo m after))) -> item_key it <> key.
Proof.
  intros k after Hg Hnow.
  assert (Hrun : get m key options w =
                 (Normal None,
                  {| storage := removeItem k (storage w); clock := clock w;
                     reads := S (reads w); setItem_calls := setItem_calls w |})).
  { unfold get, try_catch, bind, localStorage_getItem, on_storage.
    fold k. rewrite Hg. cbn.
    destruct (Z.gtb_spec (clock w (reads w)) (expires e)) as [_|Hle]; [|lia].
    reflexivity. }
  assert (Hafter : after = removeItem k (storage w)).
  { unfold after. now rewrite Hrun. }
  split; [now rewrite Hrun|].
  split; [exact Hafter|].
  split; [rewrite Hafter; apply getItem_removeItem_same|].
  intros it Hit Hkey.
  destruct (getStorageInfo_items m after it Hit) as [k' [e' [Hin [Hck ->]]]].
  pose proof (full_key_item_of m k' e' Hck) as Hfull.
  unfold full_key in Hfull. rewrite Hkey in Hfull. fold k in Hfull. subst k'.
  rewrite Hafter in Hin. apply removeItem_In in Hin as [_ Hne].
  now apply Hne.
Qed.

(** What [set] does after a refused first write. It runs
    [clearLowPriorityCache] once and calls [setItem] exactly once more; it
    returns the outcome of that second call and never throws. When the
    second call is refused too the store is the swept one, without the new
    entry. The sweep removes only cache keys that hold a priority below 50
    or a text that fails to parse, and it changes no value. On a store
    whose cache entries all parse it removes every cache entry of priority
    below 50. *)
Theorem set_refused_sweeps_and_retries_once key d options (w : World Data) e w1 :
  let k := (cachePrefix m ++ key)%string in
  let swept := clearLowPriorityCache m (storage w) in
  let retry := setItem_ok swept k (Entry e) in
  let result := set m key d options w in
  distinct_keys (storage w) ->
  make_entry m key d options w = (Normal e, w1) ->
  setItem_ok (storage w) k (Entry e) = false ->
  fst result = Normal retry /\
  setItem_calls (snd result) = (k, retry) :: (k, false) :: setItem_calls w /\
  storage (snd result) = (if retry then putItem k (Entry e) swept else swept) /\
  (retry = false -> getItem k (storage (snd result)) = getItem k swept) /\
  (forall k' v, getItem k' swept = Some v -> getItem k' (storage w) = Some v) /\
  (forall k' v,
      getItem k' (storage w) = Some v ->
      getItem k' swept = Some v \/
      (getItem k' swept = None /\ is_cache_key m k' = true /\
       match v with
       | Entry e' => priority e' < 50
       | Text _ => True
       end)) /\
  (parseable m (storage w) ->
   forall k' e',
     In (k', Entry e') (storage w) ->
     is_cache_key m k' = true ->
     priority e' < 50 ->
     getItem k' swept = None).
Proof.
  intros k swept retry result Hnd Hm Hok.
  destruct (make_entry_normal m _ _ _ _ _ _ Hm)
    as (_ & _ & _ & _ & _ & _ & Hst & Hcalls).
  assert (Hset := set_refused m key d options w e w1 Hm).
  rewrite Hst, Hcalls in Hset. specialize (Hset Hok). cbv zeta in Hset.
  fold k in Hset. fold swept in Hset. fold retry in Hset. fold result in Hset.
  assert (Hres : fst result = Normal retry /\
                 setItem_calls (snd result) = (k, retry) :: (k, false) :: setItem_calls w /\
                 storage (snd result) = (if retry then putItem k (Entry e) swept else swept)).
  { rewrite Hset. destruct retry; repeat split. }
  destruct Hres as (Hr & Hc & Hs).
  split; [exact Hr|]. split; [exact Hc|]. split; [exact Hs|].
  split; [intros E; rewrite Hs, E; reflexivity|].
  split; [|split].
  - intros k' v. now apply clearLowPriorityCache_keeps.
  - intros k' v. now apply clearLowPriorityCache_getItem.
  - intros Hp k' e' Hin Hck Hlow.
    now apply (clearLowPriorityCache_removes_low m (storage w) k' e').
Qed.

(** C8. When the key holds an entry that has not expired and matches the
    requested version, and the write-back of the new [lastAccessed] is
    refused by [localStorage.setItem], [get] removes the key and returns
    [null]: the read reports a miss and destroys a valid entry. *)
Theorem get_refused_writeback_deletes_entry key options (w : World Data) e :
  let k := (cachePrefix m ++ key)%string in
  let after := storage (snd (get m key options w)) in
  getItem k (storage w) = Some (Entry e) ->
  clock w (reads w) <= expires e ->
  version_mismatch options e = false ->
  setItem_ok (storage w) k (Entry (touch e (clock w (S (reads w))))) = false ->
  fst (get m key options w) = Normal None /\
  after = removeItem k (storage w) /\
  getItem k after = None.
Proof.
  intros k after Hg Hnow Hver Hok.
  assert (Hafter : fst (get m key options w) = Normal None /\
                   after = removeItem k (storage w)).
  { unfold after, get, try_catch, bind, localStorage_getItem, on_storage.
    fold k. rewrite Hg. cbn.
    destruct (Z.gtb_spec (clock w (reads w)) (expires e)) as [Hgt|_]; [lia|].
    rewrite Hver. unfold JSON_stringify. cbn.
    destruct (json_bytes (data e)); cbn.
    - unfold localStorage_setItem. cbn. rewrite Hok. cbn. now split.
    - now split. }
  destruct Hafter as [Hr Ha].
  split; [exact Hr|]. split; [exact Ha|].
  rewrite Ha. apply getItem_removeItem_same.
Qed.

Lemma priority_of_default table key :
  (forall pattern p, In (pattern, p) table -> includes pattern key = false) ->
  priority_of table key = 10.
Proof.
  induction table as [|[pattern p] table IH]; intros Hno; [reflexivity|].
  simpl. rewrite (Hno pattern p) by now left.
  apply IH. intros q r Hin. apply (Hno q r). now right.
Qed.

Lemma priority_of_first_match table key earlier pattern p later :
  table = earlier ++ (pattern, p) :: later ->
  (forall q r, In (q, r) earlier -> includes q key = false) ->
  includes pattern key = true ->
  priority_of table key = p.
Proof.
  intros -> Hnone Hhit. induction earlier as [|[q r] earlier IH]; simpl.
  - now rewrite Hhit.
  - rewrite (Hnone q r) by now left.
    apply IH. intros q' r' Hin. apply (Hnone q' r'). now right.
Qed.

(** C9. The entry a [set] call builds is the entry it stores: when the
    first write is accepted the store is the one the write and the
    eviction pass leave, when only the retry is accepted it is the swept
    store with the entry, and whenever [set] returns [true] and the key is
    still stored it holds that entry. When the options carry
    [priority = 0], the priority of that entry is the one derived from the
    key (that of the first pattern of the table the key contains, 10 when
    it contains none), and the call behaves as the same call without a
    priority. When the options carry
    [ttl = 0], the call behaves as the same call without a ttl, and as the
    same call with [ttl = 3600000]; when no [options.expires] is given the
    entry expires one hour after the second clock reading. *)
Theorem set_zero_priority_and_ttl_defaulted key d options (w : World Data) e w1 :
  let k := (cachePrefix m ++ key)%string in
  let swept := clearLowPriorityCache m (storage w) in
  let result := set m key d options w in
  let after := storage (snd result) in
  make_entry m key d options w = (Normal e, w1) ->
  (setItem_ok (storage w) k (Entry e) = true ->
   fst result = Normal true /\
   after = enforceStorageLimit m (putItem k (Entry e) (storage w))) /\
  (setItem_ok (storage w) k (Entry e) = false ->
   setItem_ok swept k (Entry e) = true ->
   fst result = Normal true /\ after = putItem k (Entry e) swept) /\
  (fst result = Normal true ->
   forall v, getItem k after = Some v -> v = Entry e) /\
  (opt_priority options = Some 0 ->
   priority e = getCachePriority m key /\
   (forall earlier pattern p later,
       cachePriorities m = earlier ++ (pattern, p) :: later ->
       (forall q r, In (q, r) earlier -> includes q key = false) ->
       includes pattern key = true ->
       priority e = p) /\
   ((forall pattern p, In (pattern, p) (cachePriorities m) ->
                       includes pattern key = false) ->
    priority e = 10) /\
   set m key d options w = set m key d (with_priority options None) w) /\
  (opt_ttl options = Some 0 ->
   (truthyZ (opt_expires options) = None ->
    expires e = clock w (S (reads w)) + 3600000) /\
   set m key d options w = set m key d (with_ttl options None) w /\
   set m key d options w = set m key d (with_ttl options (Some 3600000)) w).
Proof.
  intros k swept result after Hm.
  destruct (set_stores_entry m key d options w e w1 Hm) as (Hfirst & Hretry & Hheld).
  destruct (make_entry_normal m _ _ _ _ _ _ Hm) as (_ & _ & _ & Hexp & Hprio & _).
  split; [exact Hfirst|]. split; [exact Hretry|]. split; [exact Hheld|].
  split.
  - intros Hp. rewrite Hp in Hprio. cbn in Hprio.
    split; [exact Hprio|]. split; [|split].
    + intros earlier pattern p later Htable Hnone Hhit. rewrite Hprio.
      now apply (priority_of_first_match _ key earlier pattern p later).
    + intros Hno. rewrite Hprio. now apply priority_of_default.
    + destruct options as [ex tt pr ve ta me]. cbn in Hp. subst pr. reflexivity.
  - intros Ht. split; [|split].
    + intros Hx. rewrite Hx, Ht in Hexp. exact Hexp.
    + destruct options as [ex tt pr ve ta me]. cbn in Ht. subst tt. reflexivity.
    + destruct options as [ex tt pr ve ta me]. cbn in Ht. subst tt. reflexivity.
Qed.

(** C10. [clearCache(pattern)] looks for the pattern in the stored key,
    prefix included. A pattern that occurs in the prefix is therefore
    found in every cache key: the call removes every cache entry,
    whatever the keys the callers used, leaves the other keys of
    [localStorage] alone, and returns the number of entries it
    removed. *)
Theorem clearCache_pattern_in_prefix_clears_all pattern (st : Store Data) :
  let result := clearCache m (Some pattern) st in
  includes pattern (cachePrefix m) = true ->
  snd result = filter (fun kv => negb (is_cache_key m (fst kv))) st /\
  (forall k, is_cache_key m k = true -> getItem k (snd result) = None) /\
  fst result =
    Z.of_nat (List.length (filter (fun kv => is_cache_key m (fst kv)) st)) /\
  fst result = Z.of_nat (List.length st) - Z.of_nat (List.length (snd result)).
Proof.
  intros result Hinc.
  assert (Hkeys : keys_matching m (Some pattern) st =
                  map fst (filter (fun kv => is_cache_key m (fst kv)) st)).
  { unfold keys_matching. f_equal. apply filter_ext. intros [k v]. cbn [fst].
    destruct (is_cache_key m k) eqn:Hk; [|reflexivity].
    destruct (truthyS (Some pattern)) as [p|] eqn:E; [|reflexivity].
    assert (p = pattern) by (destruct pattern; cbn in E; congruence). subst p.
    cbn. unfold is_cache_key in Hk. apply andb_true_iff in Hk as [_ Hk].
    now apply (includes_prefixed pattern (cachePrefix m) k). }
  assert (Hstore : snd result = filter (fun kv => negb (is_cache_key m (fst kv))) st).
  { unfold result, clearCache. cbn [snd]. rewrite Hkeys.
    fold (remove_keys (map fst (filter (fun kv => is_cache_key m (fst kv)) st)) st).
    rewrite remove_keys_filter. apply filter_ext_in. intros [k v] Hin. cbn [fst].
    f_equal. destruct (is_cache_key m k) eqn:Hk.
    - apply existsb_exists. exists k. split; [|apply String.eqb_refl].
      apply in_map_iff. exists (k, v). split; [reflexivity|].
      apply filter_In. now split.
    - destruct (existsb _ _) eqn:E; [|reflexivity].
      apply existsb_exists in E as [k' [Hk' E]]. apply String.eqb_eq in E. subst k'.
      apply in_map_iff in Hk' as [[k' v'] [E Hin']]. cbn in E. subst k'.
      apply filter_In in Hin' as [_ Hk']. cbn in Hk'. congruence. }
  assert (Hcount : fst result =
                   Z.of_nat (List.length (filter (fun kv => is_cache_key m (fst kv)) st))).
  { unfold result, clearCache. cbn [fst]. rewrite Hkeys. now rewrite length_map. }
  split; [exact Hstore|]. split; [|split; [exact Hcount|]].
  - intros k Hk. apply getItem_None. rewrite Hstore. intros Hin.
    apply in_map_iff in Hin as [[k' v'] [E Hin]]. cbn in E. subst k'.
    apply filter_In in Hin as [_ Hn]. cbn in Hn. rewrite Hk in Hn. discriminate.
  - rewrite Hcount, Hstore.
    pose proof (filter_length (fun kv => is_cache_key m (fst kv)) st). lia.
Qed.

End CacheClaims.

(** * Worked examples *)

Module Examples.
Import Scenario.

Ltac compute_it :=
  first [ reflexivity
        | vm_compute; reflexivity
        | vm_compute; discriminate
        | vm_compute; intro; discriminate ].

Ltac keys_are_distinct :=
  unfold distinct_keys; vm_compute;
  repeat (constructor; [vm_compute; intuition discriminate|]); constructor.

Ltac all_parse :=
  let k := fresh "k" in let raw := fresh "raw" in let Hin := fresh "Hin" in
  intros k raw Hin; vm_compute in Hin;
  repeat (destruct Hin as [Hin|Hin]; [discriminate Hin|]); contradiction.

(** C1, counterexample. Writing B is accepted and brings the total to
    1200 bytes; the eviction pass removes B itself, the entry just written,
    which was not in the store before the write, and keeps A, the only
    entry that was. *)
Lemma eviction_removes_entry_just_written :
  let call := @set Payload roomy m1000 "B" (Letters 478) priority_10 world_A in
  let written := putItem "cosmos_connect_B" (Entry entry_B) (storage world_A) in
  fst (@make_entry Payload roomy m1000 "B" (Letters 478) priority_10 world_A)
    = Normal entry_B /\
  fst call = Normal true /\
  setItem_calls (snd call) = [("cosmos_connect_B", true)] /\
  totalSize (fst (@getStorageInfo Payload roomy m1000 written)) = 1200 /\
  getItem "cosmos_connect_B" (storage world_A) = None /\
  getItem "cosmos_connect_B" (storage (snd call)) = None /\
  getItem "cosmos_connect_A" (storage (snd call)) <> None /\
  ~ evicted_were_present (storage world_A) written (storage (snd call)).
Proof.
  cbv zeta. repeat split; try compute_it.
  intros Hc. apply (Hc "cosmos_connect_B"); compute_it.
Qed.

(** C1, the amended claim at work on the same scenario. *)
Lemma set_over_budget_evicts_lowest_example :
  let call := @set Payload roomy m1000 "B" (Letters 478) priority_10 world_A in
  fst call = Normal true /\
  5 * totalSize (fst (@getStorageInfo Payload roomy m1000 (storage (snd call))))
    <= 4 * maxCacheSize m1000.
Proof.
  cbv zeta.
  destruct (@set_over_budget_evicts_lowest Payload roomy m1000
              "B" (Letters 478) priority_10 world_A entry_B
              (snd (@make_entry Payload roomy m1000 "B" (Letters 478) priority_10 world_A)))
    as (Hr & _ & removed & kept & _ & _ & _ & _ & _ & Hfit).
  - compute_it.
  - keys_are_distinct.
  - all_parse.
  - compute_it.
  - compute_it.
  - compute_it.
  - split; [exact Hr | exact Hfit].
Defined.

(** Why the amended C1 keeps to stores whose cache entries all parse:
    [getStorageInfo] removes the unparseable text at index 0 while it
    iterates, A moves to index 0 and is never visited, and the pass sees
    600 bytes where 1200 are stored, so nothing is evicted. *)
Lemma getStorageInfo_skips_entry_after_unparseable :
  let '(info, st) := @getStorageInfo Payload roomy m1000 store_with_garbage in
  totalSize info = 600 /\ itemCount info = 1 /\
  map fst st = ["cosmos_connect_A"; "cosmos_connect_B"] /\
  @enforceStorageLimit Payload roomy m1000 store_with_garbage = st /\
  totalSize (fst (@getStorageInfo Payload roomy m1000 st)) = 1200.
Proof. vm_compute. repeat split. Qed.

(** C2. A payload that [JSON.stringify] rejects makes [set] throw:
    [calculateSize(data)] runs in the object literal, before the [try]
    block, so the exception leaves [set] and no boolean is returned. *)
Theorem set_throws_on_cyclic_payload :
  fst (@set Payload roomy default_manager "apod" Cyclic no_options (world_at 1000 []))
  = Throw.
Proof. compute_it. Qed.



(** C5 at work: the read at time 2000 misses and removes the key. *)
Lemma get_expired_is_miss_and_delete_example :
  let call := @get Payload roomy default_manager "apod" {| get_version := None |}
                   (world_at 2000 short_lived) in
  getItem "cosmos_connect_apod" short_lived
    = Some (Entry (fresh_entry (Letters 10) 12 1000 1500 10)) /\
  fst call = Normal None /\
  storage (snd call) = [] /\
  items (fst (@getStorageInfo Payload roomy default_manager (storage (snd call)))) = [].
Proof.
  cbv zeta. split; [compute_it|].
  destruct (@get_expired_is_miss_and_delete Payload roomy default_manager
              "apod" {| get_version := None |} (world_at 2000 short_lived)
              (fresh_entry (Letters 10) 12 1000 1500 10))
    as (Hr & _ & _ & _).
  - compute_it.
  - compute_it.
  - split; [exact Hr | split; compute_it].
Defined.

(** C7. The sweep after a refused write misses a low priority entry that
    is stored behind a text that does not parse. Alone in the store, the
    entry of priority 20 is swept before the retry. Behind the corrupted
    text it is not: [getStorageInfo] removes the text at index 0 while it
    iterates by index, the entry moves to index 0 and is never listed, so
    [clearLowPriorityCache] leaves it in the store. In both cases [set]
    calls [setItem] twice and returns [false]. *)
Theorem sweep_skips_entry_behind_unparseable :
  let call st := @set Payload cramped default_manager "apod_1" (Letters 200) no_options
                      (world_at 2000 st) in
  let low := fresh_entry (Letters 100) 102 1000 3601000 20 in
  let refused_twice :=
    [("cosmos_connect_apod_1", false); ("cosmos_connect_apod_1", false)] in
  one_exoplanet = [("cosmos_connect_exoplanets_x", Entry low)] /\
  low_behind_garbage
    = [("cosmos_connect_bad", Text "{"); ("cosmos_connect_exoplanets_x", Entry low)] /\
  is_cache_key default_manager "cosmos_connect_exoplanets_x" = true /\
  priority low < 50 /\
  fst (call one_exoplanet) = Normal false /\
  setItem_calls (snd (call one_exoplanet)) = refused_twice /\
  storage (snd (call one_exoplanet)) = [] /\
  fst (call low_behind_garbage) = Normal false /\
  setItem_calls (snd (call low_behind_garbage)) = refused_twice /\
  storage (snd (call low_behind_garbage)) = [("cosmos_connect_exoplanets_x", Entry low)].
Proof.
  cbv zeta. repeat split; try compute_it; cbn; lia.
Qed.

(** The sweep and the retry at work: both writes are refused, the sweep
    has removed the low priority entry, [set] returns [false] and the store
    holds nothing. *)
Lemma set_refused_sweeps_and_retries_once_example :
  let call := @set Payload cramped default_manager "apod_1" (Letters 200) no_options
                   (world_at 2000 one_exoplanet) in
  getItem "cosmos_connect_exoplanets_x" one_exoplanet
    = Some (Entry (fresh_entry (Letters 100) 102 1000 3601000 20)) /\
  fst call = Normal false /\
  setItem_calls (snd call)
    = [("cosmos_connect_apod_1", false); ("cosmos_connect_apod_1", false)] /\
  storage (snd call) = [].
Proof.
  cbv zeta. split; [compute_it|].
  destruct (@set_refused_sweeps_and_retries_once Payload cramped default_manager
              "apod_1" (Letters 200) no_options (world_at 2000 one_exoplanet) big_entry
              (snd (@make_entry Payload cramped default_manager "apod_1" (Letters 200)
                      no_options (world_at 2000 one_exoplanet))))
    as (Hr & Hc & Hs & _).
  - keys_are_distinct.
  - compute_it.
  - compute_it.
  - split; [exact Hr | split; [exact Hc | exact Hs]].
Defined.

(** C8 at work: the entry is valid at time 2000, the write-back is
    refused, and the read removes the entry and reports a miss. *)
Lemma get_refused_writeback_deletes_entry_example :
  let call := @get Payload tight default_manager "apod" {| get_version := None |}
                   (world_at 2000 one_apod) in
  getItem "cosmos_connect_apod" one_apod
    = Some (Entry (fresh_entry (Letters 10) 12 1000 3601000 10)) /\
  fst call = Normal None /\
  storage (snd call) = [].
Proof.
  cbv zeta. split; [compute_it|].
  destruct (@get_refused_writeback_deletes_entry Payload tight default_manager
              "apod" {| get_version := None |} (world_at 2000 one_apod)
              (fresh_entry (Letters 10) 12 1000 3601000 10))
    as (Hr & Hs & _).
  - compute_it.
  - compute_it.
  - compute_it.
  - compute_it.
  - split; [exact Hr | exact Hs].
Defined.

(** C9 at work: [{ priority: 0, ttl: 0 }] on the key [apod_data_1] at
    time 1000. The call returns [true] and the entry stored under the key
    has priority 70, the one of the pattern [apod_data], and expires one
    hour after time 1000. *)
Lemma set_zero_priority_and_ttl_defaulted_example :
  let call := @set Payload roomy default_manager "apod_data_1" (Letters 10) zero_options
                   (world_at 1000 []) in
  fst call = Normal true /\
  exists e,
    getItem "cosmos_connect_apod_data_1" (storage (snd call)) = Some (Entry e) /\
    priority e = 70 /\ expires e = 1000 + 3600000.
Proof.
  cbv zeta.
  destruct (@set_zero_priority_and_ttl_defaulted Payload roomy default_manager
              "apod_data_1" (Letters 10) zero_options (world_at 1000 [])
              (fresh_entry (Letters 10) 12 1000 3601000 70)
              (snd (@make_entry Payload roomy default_manager "apod_data_1" (Letters 10)
                      zero_options (world_at 1000 []))))
    as (Hfirst & _ & _ & Hp & Ht).
  - compute_it.
  - destruct Hfirst as [Hr _]; [compute_it|].
    destruct (Hp eq_refl) as (_ & Hprio & _).
    destruct (Ht eq_refl) as (Hexp & _).
    split; [exact Hr|].
    exists (fresh_entry (Letters 10) 12 1000 3601000 70). split; [compute_it|].
    split; [|apply Hexp; reflexivity].
    apply (Hprio [("user_preferences", 100); ("favorites", 90); ("recent_searches", 80)]
                 "apod_data" 70
                 [("mars_weather", 60); ("asteroids", 50); ("space_weather", 40);
                  ("rover_photos", 30); ("exoplanets", 20)]).
    + reflexivity.
    + intros q r Hin.
      repeat (destruct Hin as [Hin|Hin]; [injection Hin as <- <-; reflexivity|]).
      contradiction.
    + reflexivity.
Defined.

(** C10 at work: neither caller key contains [connect], yet
    [clearCache('connect')] removes both cache entries and returns 2. *)
Lemma clearCache_pattern_in_prefix_clears_all_example :
  includes "connect" "apod_1" = false /\
  includes "connect" "mars" = false /\
  clearCache default_manager (Some "connect") mixed_store
    = (2, [("app_theme", Text "dark")]).
Proof.
  split; [compute_it | split; [compute_it|]].
  destruct (@clearCache_pattern_in_prefix_clears_all Payload default_manager
              "connect" mixed_store) as (Hs & _ & Hn & _).
  - compute_it.
  - rewrite (surjective_pairing (clearCache default_manager (Some "connect") mixed_store)).
    rewrite Hs, Hn. compute_it.
Defined.

End Examples.

(** * Further properties of the rate limiter *)

Module RateLimiterExtras.
Import RateLimiter.

Lemma filter_keep_all {A} (f : A -> bool) (l : list A) :
  (forall x, In x l -> f x = true) -> filter f l = l.
Proof.
  induction l as [|x l IH]; intros Hf; simpl; [reflexivity|].
  rewrite (Hf x) by now left. f_equal. apply IH. intros y Hy. apply Hf. now right.
Qed.

Lemma filter_drop_all {A} (f : A -> bool) (l : list A) :
  (forall x, In x l -> f x = false) -> filter f l = [].
Proof.
  induction l as [|x l IH]; intros Hf; simpl; [reflexivity|].
  rewrite (Hf x) by now left. apply IH. intros y Hy. apply Hf. now right.
Qed.

Lemma filter_filter_same {A} (f g : A -> bool) (l : list A) :
  (forall x, g x = true -> f x = true) -> filter g (filter f l) = filter g l.
Proof.
  intros Hfg. induction l as [|x l IH]; simpl; [reflexivity|].
  destruct (f x) eqn:Ef; simpl.
  - destruct (g x); now rewrite IH.
  - destruct (g x) eqn:Eg; [|exact IH].
    apply Hfg in Eg. congruence.
Qed.

Lemma fold_min_In (l : list Z) : forall a,
  fold_left Z.min l a = a \/ In (fold_left Z.min l a) l.
Proof.
  induction l as [|y l IH]; intros a; simpl; [now left|].
  destruct (IH (Z.min a y)) as [Hh|Ht].
  - rewrite Hh. destruct (Z.min_spec a y) as [[_ ->]|[_ ->]].
    + now left.
    + right. now left.
  - right. now right.
Qed.

(** [Math.min(...xs)] is one of the elements of a non-empty array. *)
Lemma Math_min_In xs : xs <> [] -> In (Math_min xs) xs.
Proof.
  destruct xs as [|x rest]; [congruence|]. intros _. simpl.
  destruct (fold_min_In rest x) as [->|Hin]; [now left | now right].
Qed.

(** X1. At any time and in any state, [canMakeRequest()] answers [true]
    exactly when [getRemainingRequests()] answers a positive number, and
    the latter is never negative. *)
Theorem canMakeRequest_iff_remaining_positive now s sl :
  0 <= fst (getRemainingRequests now s sl) /\
  (fst (canMakeRequest now s sl) = true <-> 0 < fst (getRemainingRequests now s sl)).
Proof.
  unfold canMakeRequest, getRemainingRequests. cbn [fst]. split; [lia|].
  rewrite Z.ltb_lt. lia.
Qed.

(** X2. A request recorded with a timestamp that is inside the window
    takes exactly one of the remaining requests, down to 0:
    [getRemainingRequests()] answers [max(0, r - 1)] where it answered [r]
    before. *)
Theorem recordRequest_takes_one_remaining now stamp s sl :
  now - stamp < windowMs s ->
  let before := getRemainingRequests now s sl in
  let recorded := recordRequest stamp (fst (snd before)) (snd (snd before)) in
  fst (getRemainingRequests now (fst recorded) (snd recorded))
  = Z.max 0 (fst before - 1).
Proof.
  intros Hin before recorded.
  unfold getRemainingRequests in *. subst before recorded.
  cbn [fst snd]. unfold recordRequest. cbn [fst snd].
  rewrite !RateLimiterFacts.cleanOldRequests_keeps.
  cbn [cleanOldRequests with_requests fst requests windowMs maxRequests].
  rewrite filter_app. cbn [filter].
  assert (E : (now - stamp <? windowMs s) = true) by now apply Z.ltb_lt.
  rewrite E.
  rewrite (filter_filter_same _ _ (requests s)) by trivial.
  rewrite length_app. cbn [List.length]. lia.
Qed.

(** Pruning at a later time absorbs an earlier pruning: the
    timestamps left are those a single pruning at the later time leaves;
    pruning twice at the same time changes nothing. *)
Theorem cleanOldRequests_later_absorbs_earlier now later s sl sl' :
  now <= later ->
  requests (fst (cleanOldRequests later (fst (cleanOldRequests now s sl)) sl'))
  = requests (fst (cleanOldRequests later s sl)).
Proof.
  intros Hle. rewrite !RateLimiterFacts.cleanOldRequests_keeps.
  cbn [cleanOldRequests with_requests fst requests windowMs].
  apply filter_filter_same. intros t Ht.
  apply Z.ltb_lt in Ht. apply Z.ltb_lt. lia.
Qed.

(** X3. When [canMakeRequest()] has just answered [false] for a limiter
    that allows at least one request and holds no timestamp from the
    future, [getTimeUntilReset()] at the same time is positive and at most
    [windowMs]. *)
Theorem refused_request_waits_within_window now s sl :
  fst (canMakeRequest now s sl) = false ->
  1 <= maxRequests s ->
  (forall t, In t (requests s) -> t <= now) ->
  let pruned := fst (snd (canMakeRequest now s sl)) in
  0 < getTimeUntilReset now pruned <= windowMs s.
Proof.
  intros Hno Hmax Hpast pruned.
  unfold canMakeRequest in *. cbn [fst snd] in *. subst pruned.
  apply Z.ltb_ge in Hno.
  destruct (RateLimiterFacts.cleanOldRequests_config now s sl) as [Hm Hw].
  rewrite Hm in Hno.
  set (p := fst (cleanOldRequests now s sl)) in *.
  assert (Hall : forall t, In t (requests p) -> now - t < windowMs s /\ t <= now).
  { intros t Ht. split.
    - now apply (RateLimiterFacts.cleanOldRequests_in_window now s sl).
    - apply Hpast. unfold p in Ht.
      rewrite RateLimiterFacts.cleanOldRequests_keeps in Ht.
      now apply filter_In in Ht as [Ht _]. }
  unfold getTimeUntilReset. rewrite Hw.
  destruct (requests p) as [|x rest] eqn:E; [simpl in Hno; lia|].
  rewrite <- E in *.
  assert (Hmin : In (Math_min (requests p)) (requests p))
    by (apply Math_min_In; rewrite E; discriminate).
  destruct (Hall _ Hmin). lia.
Qed.

(** X4. A recorded request whose write to [localStorage] is accepted
    survives a reload: a limiter constructed afterwards starts from the
    recorded timestamps that are still inside its window. *)
Theorem recordRequest_survives_reload stamp now s sl config :
  accepts sl (requests s ++ [stamp]) = true ->
  requests (fst (new config now (snd (recordRequest stamp s sl))))
  = filter (fun t => now - t <? cfg_window config) (requests s ++ [stamp]).
Proof.
  intros Hok. unfold new, recordRequest, StorageUtils_set. cbn [snd].
  rewrite Hok. cbn [snd]. rewrite RateLimiterFacts.cleanOldRequests_keeps.
  reflexivity.
Qed.

(** X5. [recordRequest()] never fails. When the write to [localStorage]
    is refused the timestamp is kept in memory only: the slot is left as it
    was, and a limiter constructed afterwards does not know the request. *)
Theorem recordRequest_refused_write_is_forgotten stamp now s sl config :
  accepts sl (requests s ++ [stamp]) = false ->
  requests (fst (recordRequest stamp s sl)) = requests s ++ [stamp] /\
  snd (recordRequest stamp s sl) = sl /\
  requests (fst (new config now (snd (recordRequest stamp s sl))))
  = requests (fst (new config now sl)).
Proof.
  intros Hno. unfold recordRequest, StorageUtils_set. cbn [fst snd].
  rewrite Hno. cbn [snd]. repeat split.
Qed.

(** A window of zero or negative length disables the limiter: every
    timestamp that is not from the future is pruned, so [canMakeRequest()]
    answers [true] whenever [maxRequests] is positive, however many
    requests were recorded. *)
Theorem nonpositive_window_never_limits now s sl :
  windowMs s <= 0 ->
  (forall t, In t (requests s) -> t <= now) ->
  requests (fst (snd (canMakeRequest now s sl))) = [] /\
  (fst (canMakeRequest now s sl) = true <-> 0 < maxRequests s).
Proof.
  intros Hw Hpast. unfold canMakeRequest. cbn [fst snd].
  rewrite RateLimiterFacts.cleanOldRequests_keeps.
  destruct (RateLimiterFacts.cleanOldRequests_config now s sl) as [-> _].
  rewrite filter_drop_all.
  - split; [reflexivity|]. cbn [List.length]. rewrite Z.ltb_lt. lia.
  - intros t Ht. apply Z.ltb_ge. specialize (Hpast t Ht). lia.
Qed.

(** X6. [getRateLimitInfo()] prunes before it computes [resetTime],
    because [getRemainingRequests()] runs first: when both clock readings
    are the same, [resetTime] is the answer of the pruning reading, it is 0
    exactly when no timestamp is inside the window, and positive
    otherwise. *)
Theorem getRateLimitInfo_resets_from_window now s sl :
  let info := fst (getRateLimitInfo now now s sl) in
  resetTime info = fst (getTimeUntilReset_pruning now s sl) /\
  remaining info = fst (getRemainingRequests now s sl) /\
  (resetTime info = 0 <->
   filter (fun t => now - t <? windowMs s) (requests s) = []) /\
  0 <= resetTime info.
Proof.
  intros info. subst info.
  unfold getRateLimitInfo, getTimeUntilReset_pruning, getRemainingRequests.
  cbn [fst snd resetTime remaining].
  split; [reflexivity | split; [reflexivity|]].
  unfold getTimeUntilReset.
  destruct (RateLimiterFacts.cleanOldRequests_config now s sl) as [_ ->].
  pose proof (RateLimiterFacts.cleanOldRequests_in_window now s sl) as Hin.
  rewrite RateLimiterFacts.cleanOldRequests_keeps in *.
  destruct (filter (fun t => now - t <? windowMs s) (requests s)) as [|x rest] eqn:E.
  - split; [tauto | lia].
  - assert (Hmin : In (Math_min (x :: rest)) (x :: rest))
      by (apply Math_min_In; discriminate).
    specialize (Hin _ Hmin). split; [|lia].
    split; [lia | discriminate].
Qed.

End RateLimiterExtras.

(** * Further properties of the cache: reads, writes and deletion *)

Section CacheReadWrite.
Context {Data : Type} `{Browser Data}.
Variable m : Manager.

Lemma getItem_putItem_other k k' v (st : Store Data) :
  k <> k' -> getItem k' (putItem k v st) = getItem k' st.
Proof.
  intros Hne. induction st as [|[k0 v0] st IH]; simpl.
  - destruct (String.eqb_spec k' k); [congruence | reflexivity].
  - destruct (String.eqb_spec k k0) as [->|Hk0]; simpl.
    + destruct (String.eqb_spec k' k0); [congruence | reflexivity].
    + now rewrite IH.
Qed.

Lemma removeItem_absent k (st : Store Data) :
  getItem k st = None -> removeItem k st = st.
Proof.
  intros Hg. unfold removeItem. apply filter_all. intros [k' v] Hin. cbn [fst].
  apply negb_true_iff, String.eqb_neq. intros ->.
  apply getItem_None in Hg. apply Hg. change k' with (fst (k', v)). now apply in_map.
Qed.

Lemma make_entry_succeeds key d options (w : World Data) n :
  json_bytes d = Some n ->
  exists e w1, make_entry m key d options w = (Normal e, w1).
Proof.
  intros Hj. unfold make_entry, bind, Date_now, calculateSize, ret.
  destruct (truthyZ (opt_expires options)); cbn; rewrite Hj; cbn; eauto.
Qed.

Lemma get_on_absent key options (w : World Data) :
  getItem (cachePrefix m ++ key)%string (storage w) = None ->
  get m key options w = (Normal None, w).
Proof.
  intros Hg. destruct w as [st ck rd calls]. cbn [storage] in Hg.
  unfold get, try_catch, bind, localStorage_getItem, on_storage.
  cbn [storage clock reads setItem_calls]. rewrite Hg. reflexivity.
Qed.

Lemma delete_on_absent key (w : World Data) :
  getItem (cachePrefix m ++ key)%string (storage w) = None ->
  delete m key w = (Normal tt, w).
Proof.
  intros Hg. destruct w as [st ck rd calls]. cbn [storage] in Hg.
  unfold delete, localStorage_removeItem, on_storage.
  cbn [storage clock reads setItem_calls]. now rewrite (removeItem_absent _ _ Hg).
Qed.

(** What a hit does, step by step. *)
Lemma get_on_hit key options (w : World Data) e :
  let k := (cachePrefix m ++ key)%string in
  let touched := touch e (clock w (S (reads w))) in
  getItem k (storage w) = Some (Entry e) ->
  clock w (reads w) <= expires e ->
  version_mismatch options e = false ->
  json_bytes (data e) <> None ->
  setItem_ok (storage w) k (Entry touched) = true ->
  fst (get m key options w) = Normal (Some (data e)) /\
  storage (snd (get m key options w)) = putItem k (Entry touched) (storage w).
Proof.
  intros k touched Hg Hnow Hver Hj Hok.
  unfold get, try_catch, bind, localStorage_getItem, on_storage.
  fold k. rewrite Hg. cbn.
  destruct (Z.gtb_spec (clock w (reads w)) (expires e)) as [Hgt|_]; [lia|].
  rewrite Hver. unfold JSON_stringify. cbn.
  destruct (json_bytes (data e)); [|congruence]. cbn.
  unfold localStorage_setItem. cbn. fold touched. rewrite Hok. cbn. now split.
Qed.

(** X7. [get] never throws: whatever the key, the options, the store and
    the quota, it returns a value or [null]. *)
Theorem get_never_throws key options (w : World Data) :
  exists r, fst (get m key options w) = Normal r.
Proof.
  unfold get, try_catch.
  match goal with
  | |- context [match ?c with _ => _ end] => destruct c as [[a|] w']
  end.
  - now exists a.
  - exists None. reflexivity.
Qed.

(** X8. [set] throws exactly when [JSON.stringify] rejects the payload;
    for every other payload it returns a boolean, whatever the store and
    the quota. *)
Theorem set_throws_iff_payload_rejected key d options (w : World Data) :
  fst (set m key d options w) = Throw <-> json_bytes d = None.
Proof.
  split.
  - intros Hthrow. destruct (json_bytes d) as [n|] eqn:Hj; [exfalso | reflexivity].
    destruct (make_entry_succeeds key d options w n Hj) as [e [w1 Hm]].
    destruct (setItem_ok (storage w1) (cachePrefix m ++ key)%string (Entry e)) eqn:Hok.
    + rewrite (set_written m key d options w e w1 Hm Hok) in Hthrow. discriminate.
    + rewrite (set_refused m key d options w e w1 Hm Hok) in Hthrow.
      cbv zeta in Hthrow. destruct (setItem_ok _ _ _) in Hthrow; discriminate.
  - intros Hj. now apply set_throws.
Qed.

(** [get] on a key that is not stored is a miss that changes
    nothing: no write, no removal, no clock reading. *)
Theorem get_absent_key_changes_nothing key options (w : World Data) :
  getItem (cachePrefix m ++ key)%string (storage w) = None ->
  get m key options w = (Normal None, w).
Proof. apply get_on_absent. Qed.

(** X9. A hit: when the key holds an entry that has not expired and
    matches the requested version, and the write-back is accepted, [get]
    returns the payload, records the second clock reading as
    [lastAccessed], changes nothing else in the entry and leaves every
    other key alone. *)
Theorem get_hit_returns_payload_and_touches key options (w : World Data) e :
  let k := (cachePrefix m ++ key)%string in
  let touched := touch e (clock w (S (reads w))) in
  let after := storage (snd (get m key options w)) in
  getItem k (storage w) = Some (Entry e) ->
  clock w (reads w) <= expires e ->
  version_mismatch options e = false ->
  json_bytes (data e) <> None ->
  setItem_ok (storage w) k (Entry touched) = true ->
  fst (get m key options w) = Normal (Some (data e)) /\
  after = putItem k (Entry touched) (storage w) /\
  getItem k after = Some (Entry touched) /\
  (forall k', k <> k' -> getItem k' after = getItem k' (storage w)).
Proof.
  intros k touched after Hg Hnow Hver Hj Hok.
  destruct (get_on_hit key options w e Hg Hnow Hver Hj Hok) as [Hr Ha].
  fold after in Ha. split; [exact Hr|]. split; [exact Ha|].
  rewrite Ha. split; [apply getItem_putItem_same|].
  intros k' Hne. now apply getItem_putItem_other.
Qed.

(** X10. Version invalidation: when the key holds an unexpired entry
    whose version differs from the one requested, [get] returns [null] and
    removes the key. *)
Theorem get_version_mismatch_is_miss_and_delete key options (w : World Data) e :
  let k := (cachePrefix m ++ key)%string in
  let after := storage (snd (get m key options w)) in
  getItem k (storage w) = Some (Entry e) ->
  clock w (reads w) <= expires e ->
  version_mismatch options e = true ->
  fst (get m key options w) = Normal None /\
  after = removeItem k (storage w) /\
  getItem k after = None /\
  setItem_calls (snd (get m key options w)) = setItem_calls w.
Proof.
  intros k after Hg Hnow Hver.
  assert (Hrun : fst (get m key options w) = Normal None /\
                 after = removeItem k (storage w) /\
                 setItem_calls (snd (get m key options w)) = setItem_calls w).
  { unfold after, get, try_catch, bind, localStorage_getItem, on_storage.
    fold k. rewrite Hg. cbn.
    destruct (Z.gtb_spec (clock w (reads w)) (expires e)) as [Hgt|_]; [lia|].
    rewrite Hver. cbn. repeat split. }
  destruct Hrun as (Hr & Ha & Hc).
  split; [exact Hr|]. split; [exact Ha|]. split; [|exact Hc].
  rewrite Ha. apply getItem_removeItem_same.
Qed.

(** X11. A stored text that does not parse is a miss, and [get] removes
    it; the empty text is the exception: it is a miss too, but it stays in
    the store. *)
Theorem get_unparseable_is_miss key options (w : World Data) raw :
  let k := (cachePrefix m ++ key)%string in
  getItem k (storage w) = Some (Text raw) ->
  fst (get m key options w) = Normal None /\
  storage (snd (get m key options w))
  = if String.eqb raw "" then storage w else removeItem k (storage w).
Proof.
  intros k Hg.
  unfold get, try_catch, bind, localStorage_getItem, on_storage.
  fold k. rewrite Hg. destruct raw as [|c raw]; cbn; now split.
Qed.

(** [delete] is idempotent and local: on a key that is not stored it
    changes nothing, and in general it removes the key and no other. *)
Theorem delete_absent_key_changes_nothing key (w : World Data) :
  getItem (cachePrefix m ++ key)%string (storage w) = None ->
  delete m key w = (Normal tt, w).
Proof. apply delete_on_absent. Qed.

(** X12. After [delete(key)], [get(key)] is a miss that changes nothing
    more, every other key holds what it held, and a second [delete(key)]
    changes nothing. *)
Theorem delete_then_get_misses key options (w : World Data) :
  let k := (cachePrefix m ++ key)%string in
  let deleted := snd (delete m key w) in
  fst (delete m key w) = Normal tt /\
  get m key options deleted = (Normal None, deleted) /\
  delete m key deleted = (Normal tt, deleted) /\
  (forall k', k <> k' -> getItem k' (storage deleted) = getItem k' (storage w)).
Proof.
  intros k deleted.
  assert (Hgone : getItem k (storage deleted) = None).
  { unfold deleted, delete, localStorage_removeItem, on_storage. cbn.
    apply getItem_removeItem_same. }
  split; [reflexivity|].
  split; [now apply get_on_absent|].
  split; [now apply delete_on_absent|].
  intros k' Hne. unfold deleted, delete, localStorage_removeItem, on_storage. cbn.
  now apply getItem_removeItem_other.
Qed.

End CacheReadWrite.

(** * Further properties of the cache: accounting, eviction and clearing *)

Section CacheAccounting.
Context {Data : Type} `{Browser Data}.
Variable m : Manager.

(** With distinct keys a key holds one value. *)
Lemma distinct_same_value k v v' (st : Store Data) :
  distinct_keys st -> In (k, v) st -> In (k, v') st -> v = v'.
Proof.
  intros Hnd Hv Hv'.
  pose proof (distinct_getItem k v st Hnd Hv) as E.
  rewrite (distinct_getItem k v' st Hnd Hv') in E. congruence.
Qed.

Lemma sorted_weaken {A} (R R' : A -> A -> Prop) (l : list A) :
  (forall a b, R a b -> R' a b) -> StronglySorted R l -> StronglySorted R' l.
Proof.
  intros Himp. induction 1 as [|x l Hs IH Hx]; constructor; [exact IH|].
  rewrite Forall_forall in *. intros y Hy. now apply Himp, Hx.
Qed.

Lemma by_priority_desc_total a b :
  by_priority_desc a b <= 0 \/ by_priority_desc b a <= 0.
Proof. unfold by_priority_desc. lia. Qed.

Lemma by_priority_desc_trans a b c :
  by_priority_desc a b <= 0 -> by_priority_desc b c <= 0 -> by_priority_desc a c <= 0.
Proof. unfold by_priority_desc. lia. Qed.

(** X13. On a store whose cache entries all parse, [getStorageInfo()]
    leaves the store as it was and its report is consistent and complete:
    [items] lists every cache entry of the store exactly once, in
    descending priority, [itemCount] is the number of items, [totalSize]
    is the sum of their sizes, and [maxSize] is the budget. *)
Theorem getStorageInfo_report_is_consistent (st : Store Data) :
  let info := fst (getStorageInfo m st) in
  parseable m st ->
  snd (getStorageInfo m st) = st /\
  Permutation (items info) (cache_items m st) /\
  StronglySorted (fun a b => item_priority b <= item_priority a) (items info) /\
  itemCount info = Z.of_nat (List.length (items info)) /\
  totalSize info = sum_sizes (items info) /\
  (forall it, In it (items info) ->
              exists k e, getItem k st <> None /\ In (k, Entry e) st /\
                          is_cache_key m k = true /\ it = item_of m k e) /\
  maxSize info = maxCacheSize m.
Proof.
  intros info Hp.
  assert (Hitems := getStorageInfo_items m st).
  subst info. rewrite (getStorageInfo_parseable m st Hp) in *.
  cbn [fst snd items itemCount totalSize maxSize] in *.
  pose proof (sort_by_perm by_priority_desc (cache_items m st)) as Hperm.
  split; [reflexivity|].
  split; [now apply Permutation_sym|].
  split.
  { apply (sorted_weaken (before by_priority_desc)).
    - intros a b Hab. unfold before, by_priority_desc in Hab. lia.
    - apply sort_by_sorted;
        [apply by_priority_desc_total | apply by_priority_desc_trans]. }
  split; [now rewrite <- (Permutation_length Hperm)|].
  split; [now rewrite <- (sum_sizes_perm _ _ Hperm)|].
  split; [|reflexivity].
  intros it Hit. destruct (Hitems it Hit) as [k [e (Hin & Hk & ->)]].
  exists k, e. repeat split; trivial.
  intros Hnone. apply getItem_None in Hnone. apply Hnone.
  change k with (fst (k, Entry e)). now apply in_map.
Qed.

(** X14. [getStorageInfo()] removes nothing but cache keys whose text
    fails to parse: every entry that parses and every key outside the
    cache namespace holds afterwards what it held before. *)
Theorem getStorageInfo_keeps_entries_and_foreign_keys (st : Store Data) k v :
  distinct_keys st ->
  getItem k st = Some v ->
  (is_cache_key m k = false \/ exists e, v = Entry e) ->
  getItem k (snd (getStorageInfo m st)) = Some v.
Proof.
  intros Hnd Hg Hkeep.
  destruct (getStorageInfo_store m st) as [gone [-> Hgone]].
  rewrite (getItem_remove_keys gone k st Hnd).
  destruct (existsb (String.eqb k) gone) eqn:E; [exfalso | exact Hg].
  apply existsb_exists in E as [k' [Hk' E]]. apply String.eqb_eq in E. subst k'.
  destruct (Hgone k Hk') as [Hck [raw Hraw]].
  destruct Hkeep as [Hno|[e ->]]; [congruence|].
  apply getItem_In in Hg.
  pose proof (distinct_same_value k _ _ st Hnd Hg Hraw). discriminate.
Qed.

Lemma enforceStorageLimit_within_budget (st : Store Data) :
  parseable m st ->
  sum_sizes (cache_items m st) <= maxCacheSize m ->
  enforceStorageLimit m st = st.
Proof.
  intros Hp Hle. unfold enforceStorageLimit.
  rewrite (getStorageInfo_parseable m st Hp). cbn [totalSize].
  destruct (Z.leb_spec (sum_sizes (cache_items m st)) (maxCacheSize m)); [reflexivity | lia].
Qed.

Lemma enforceStorageLimit_fits (st : Store Data) :
  0 <= maxCacheSize m ->
  distinct_keys st ->
  parseable m st ->
  sum_sizes (cache_items m (enforceStorageLimit m st)) <= maxCacheSize m /\
  parseable m (enforceStorageLimit m st) /\
  distinct_keys (enforceStorageLimit m st).
Proof.
  intros HB Hnd Hp.
  destruct (Z.le_gt_cases (sum_sizes (cache_items m st)) (maxCacheSize m)) as [Hle|Hgt].
  - rewrite (enforceStorageLimit_within_budget st Hp Hle). now repeat split.
  - destruct (enforceStorageLimit_over_budget m st HB Hnd Hp Hgt)
      as [removed [kept (_ & Henf & _ & _ & Hfit)]].
    split; [lia|]. rewrite Henf.
    split; [now apply parseable_remove_keys | now apply distinct_remove_keys].
Qed.

(** X15. On a store with distinct keys whose cache entries all parse,
    [enforceStorageLimit()] leaves at most [maxCacheSize] bytes of cache
    entries, changes nothing when the store is within the budget already,
    and changes nothing when it runs a second time. *)
Theorem enforceStorageLimit_settles (st : Store Data) :
  0 <= maxCacheSize m ->
  distinct_keys st ->
  parseable m st ->
  totalSize (fst (getStorageInfo m (enforceStorageLimit m st))) <= maxCacheSize m /\
  (totalSize (fst (getStorageInfo m st)) <= maxCacheSize m ->
   enforceStorageLimit m st = st) /\
  enforceStorageLimit m (enforceStorageLimit m st) = enforceStorageLimit m st.
Proof.
  intros HB Hnd Hp.
  destruct (enforceStorageLimit_fits st HB Hnd Hp) as (Hfit & Hp' & _).
  rewrite (getStorageInfo_parseable m _ Hp'), (getStorageInfo_parseable m st Hp).
  cbn [fst totalSize].
  split; [exact Hfit|]. split.
  - now apply enforceStorageLimit_within_budget.
  - now apply enforceStorageLimit_within_budget.
Qed.

(** X16. The budget invariant of writes: when the first write of a [set]
    call is accepted (in a store with distinct keys whose cache entries all
    parse), the cache entries take at most [maxCacheSize] bytes when [set]
    returns, and the store stays well formed. *)
Theorem set_accepted_write_keeps_budget key d options (w : World Data) e w1 :
  let k := (cachePrefix m ++ key)%string in
  let final := storage (snd (set m key d options w)) in
  0 <= maxCacheSize m ->
  distinct_keys (storage w) ->
  parseable m (storage w) ->
  make_entry m key d options w = (Normal e, w1) ->
  setItem_ok (storage w) k (Entry e) = true ->
  fst (set m key d options w) = Normal true /\
  totalSize (fst (getStorageInfo m final)) <= maxCacheSize m /\
  parseable m final /\ distinct_keys final.
Proof.
  intros k final HB Hnd Hp Hm Hok.
  destruct (make_entry_normal m _ _ _ _ _ _ Hm) as (_ & _ & _ & _ & _ & _ & Hst & _).
  assert (Hset := set_written m key d options w e w1 Hm).
  rewrite Hst in Hset. specialize (Hset Hok). fold k in Hset.
  assert (Hfinal : final = enforceStorageLimit m (putItem k (Entry e) (storage w))).
  { unfold final. now rewrite Hset. }
  destruct (enforceStorageLimit_fits (putItem k (Entry e) (storage w)) HB)
    as (Hfit & Hp' & Hnd').
  { now apply distinct_putItem. }
  { now apply parseable_putItem. }
  rewrite <- Hfinal in *.
  split; [now rewrite Hset|].
  rewrite (getStorageInfo_parseable m final Hp'). cbn [fst totalSize].
  now repeat split.
Qed.

(** X17. Round trip: when the first write of [set(key, d)] is accepted
    and leaves the cache within its budget, a following [get(key)] that
    finds the entry unexpired and whose write-back is accepted returns
    [d]. *)
Theorem set_then_get_returns_payload key d options (w : World Data) e w1 :
  let k := (cachePrefix m ++ key)%string in
  let written := putItem k (Entry e) (storage w) in
  let w2 := snd (set m key d options w) in
  parseable m (storage w) ->
  make_entry m key d options w = (Normal e, w1) ->
  setItem_ok (storage w) k (Entry e) = true ->
  totalSize (fst (getStorageInfo m written)) <= maxCacheSize m ->
  clock w2 (reads w2) <= expires e ->
  setItem_ok (storage w2) k (Entry (touch e (clock w2 (S (reads w2))))) = true ->
  fst (set m key d options w) = Normal true /\
  fst (get m key {| get_version := None |} w2) = Normal (Some d).
Proof.
  intros k written w2 Hp Hm Hok Hle Hnow Hok2.
  destruct (make_entry_normal m _ _ _ _ _ _ Hm) as (Hj & Hd & _ & _ & _ & _ & Hst & _).
  assert (Hset := set_written m key d options w e w1 Hm).
  rewrite Hst in Hset. specialize (Hset Hok). fold k in Hset. fold written in Hset.
  assert (Hpw : parseable m written) by now apply parseable_putItem.
  rewrite (getStorageInfo_parseable m written Hpw) in Hle. cbn [fst totalSize] in Hle.
  rewrite (enforceStorageLimit_within_budget written Hpw Hle) in Hset.
  assert (Hw2 : storage w2 = written) by (unfold w2; now rewrite Hset).
  split; [now rewrite Hset|].
  assert (Hget : getItem k (storage w2) = Some (Entry e))
    by (rewrite Hw2; apply getItem_putItem_same).
  destruct (get_on_hit m key {| get_version := None |} w2 e Hget Hnow) as [Hr _].
  - reflexivity.
  - rewrite Hd, Hj. discriminate.
  - exact Hok2.
  - now rewrite Hr, Hd.
Qed.

End CacheAccounting.

(** * Further properties of the cache: sweeps and start-up *)

Section CacheSweeps.
Context {Data : Type} `{Browser Data}.
Variable m : Manager.

Lemma remove_keys_exact keys (P : string * Stored Data -> bool) (st : Store Data) :
  (forall kv, In kv st -> (In (fst kv) keys <-> P kv = true)) ->
  remove_keys keys st = filter (fun kv => negb (P kv)) st.
Proof.
  intros Hiff. rewrite remove_keys_filter. apply filter_ext_in. intros kv Hin.
  f_equal. destruct (P kv) eqn:E.
  - apply existsb_exists. exists (fst kv). split; [|apply String.eqb_refl].
    now apply (Hiff kv Hin).
  - destruct (existsb (String.eqb (fst kv)) keys) eqn:Ex; [|reflexivity].
    apply existsb_exists in Ex as [k [Hk Ek]]. apply String.eqb_eq in Ek. subst k.
    apply (Hiff kv Hin) in Hk. congruence.
Qed.

Lemma getItem_filter_key (f : string -> bool) k (st : Store Data) :
  getItem k (filter (fun kv => f (fst kv)) st) = if f k then getItem k st else None.
Proof.
  induction st as [|[k' v] st IH]; simpl; [now destruct (f k)|].
  destruct (f k') eqn:Ef; simpl.
  - destruct (String.eqb_spec k k') as [->|Hne]; [now rewrite Ef | exact IH].
  - destruct (String.eqb_spec k k') as [->|Hne]; [now rewrite IH, Ef | exact IH].
Qed.

(** X18. On a store with distinct keys whose cache entries all parse,
    [clearLowPriorityCache()] removes exactly the cache entries of
    priority below 50: entries of priority 50 or more and the keys outside
    the cache namespace stay, in their order. *)
Theorem clearLowPriorityCache_removes_exactly_low (st : Store Data) :
  distinct_keys st ->
  parseable m st ->
  clearLowPriorityCache m st = filter (fun kv => negb (is_low_priority m kv)) st.
Proof.
  intros Hnd Hp. unfold clearLowPriorityCache.
  rewrite (getStorageInfo_parseable m st Hp). cbn [items].
  rewrite fold_remove_items. apply remove_keys_exact.
  intros [k v] Hin. cbn [fst]. unfold is_low_priority. cbn [fst snd].
  rewrite in_map_iff. split.
  - intros [it [Hk Hit]]. apply filter_In in Hit as [Hit Hlow].
    apply sort_by_In in Hit. apply cache_items_In in Hit as [k' [e (Hin' & Hck & ->)]].
    rewrite (full_key_item_of m k' e Hck) in Hk. subst k'.
    rewrite (distinct_same_value k v (Entry e) st Hnd Hin Hin').
    rewrite Hck. exact Hlow.
  - intros Hlow. apply andb_true_iff in Hlow as [Hck Hlow].
    destruct v as [e|raw]; [|discriminate].
    exists (item_of m k e). split; [now apply full_key_item_of|].
    apply filter_In. split; [|exact Hlow].
    apply sort_by_In. apply cache_items_In. now exists k, e.
Qed.

(** X19. [clearCache(pattern)] removes exactly the cache keys whose
    stored name, prefix included, contains the pattern, and every cache key
    when the pattern is absent or empty. It leaves every other key with its
    value and returns the number of keys it removed. *)
Theorem clearCache_removes_exactly_matching pattern (st : Store Data) :
  let result := clearCache m pattern st in
  snd result = filter (fun kv => negb (matches_pattern m pattern (fst kv))) st /\
  (forall k, getItem k (snd result)
             = if matches_pattern m pattern k then None else getItem k st) /\
  fst result
  = Z.of_nat (List.length (filter (fun kv => matches_pattern m pattern (fst kv)) st)) /\
  fst result = Z.of_nat (List.length st) - Z.of_nat (List.length (snd result)).
Proof.
  intros result.
  assert (Hstore : snd result
                   = filter (fun kv => negb (matches_pattern m pattern (fst kv))) st).
  { unfold result, clearCache. cbn [snd].
    fold (remove_keys (keys_matching m pattern st) st).
    apply (remove_keys_exact _ (fun kv => matches_pattern m pattern (fst kv))).
    intros [k v] Hin. cbn [fst]. unfold keys_matching. rewrite in_map_iff. split.
    - intros [[k' v'] [E Hin']]. cbn in E. subst k'.
      now apply filter_In in Hin' as [_ Hm].
    - intros Hm. exists (k, v). split; [reflexivity|]. apply filter_In. now split. }
  assert (Hcount : fst result
                   = Z.of_nat (List.length
                                 (filter (fun kv => matches_pattern m pattern (fst kv)) st))).
  { unfold result, clearCache, keys_matching. cbn [fst]. now rewrite length_map. }
  split; [exact Hstore|]. split; [|split; [exact Hcount|]].
  - intros k. rewrite Hstore.
    rewrite (getItem_filter_key (fun k => negb (matches_pattern m pattern k))).
    now destruct (matches_pattern m pattern k).
  - rewrite Hcount, Hstore.
    pose proof (filter_length (fun kv => matches_pattern m pattern (fst kv)) st). lia.
Qed.

Lemma cleanupExpiredCache_storage (w : World Data) :
  distinct_keys (storage w) ->
  storage (snd (cleanupExpiredCache m w))
  = filter (fun kv => negb (is_stale m (clock w (reads w)) kv)) (storage w).
Proof.
  intros Hnd. unfold cleanupExpiredCache, bind, Date_now, on_storage.
  cbn [storage clock reads setItem_calls snd].
  fold (remove_keys (keys_expired m (clock w (reads w)) (storage w)) (storage w)).
  apply remove_keys_exact. intros [k v] Hin. cbn [fst]. unfold keys_expired.
  rewrite in_map_iff. split.
  - intros [[k' v'] [E Hin']]. cbn in E. subst k'.
    apply filter_In in Hin' as [Hin' Hs].
    now rewrite (distinct_same_value k v v' (storage w) Hnd Hin Hin').
  - intros Hs. exists (k, v). split; [reflexivity|]. apply filter_In. now split.
Qed.

(** X20. [cleanupExpiredCache()] removes exactly the cache keys that hold
    an entry past its expiry or a text that fails to parse. Afterwards
    every cache key holds an entry that parses and has not expired, and the
    keys outside the cache namespace are untouched. Unlike
    [getStorageInfo()], it misses none: it collects the keys first and
    removes them afterwards. *)
Theorem cleanupExpiredCache_leaves_live_entries (w : World Data) :
  let now := clock w (reads w) in
  let after := storage (snd (cleanupExpiredCache m w)) in
  distinct_keys (storage w) ->
  fst (cleanupExpiredCache m w) = Normal tt /\
  after = filter (fun kv => negb (is_stale m now kv)) (storage w) /\
  parseable m after /\
  (forall k e, In (k, Entry e) after -> is_cache_key m k = true -> now <= expires e) /\
  (forall k v, is_cache_key m k = false -> In (k, v) (storage w) -> In (k, v) after).
Proof.
  intros now after Hnd.
  assert (Ha : after = filter (fun kv => negb (is_stale m now kv)) (storage w))
    by now apply cleanupExpiredCache_storage.
  split; [reflexivity|]. split; [exact Ha|]. rewrite Ha. split; [|split].
  - intros k raw Hin. apply filter_In in Hin as [_ Hs].
    unfold is_stale in Hs. cbn [fst snd] in Hs.
    rewrite andb_true_r in Hs. now apply negb_true_iff in Hs.
  - intros k e Hin Hck. apply filter_In in Hin as [_ Hs].
    unfold is_stale in Hs. cbn [fst snd] in Hs. rewrite Hck in Hs. cbn in Hs.
    apply negb_true_iff in Hs.
    destruct (Z.gtb_spec now (expires e)); [discriminate | lia].
  - intros k v Hck Hin. apply filter_In. split; [exact Hin|].
    unfold is_stale. cbn [fst]. now rewrite Hck.
Qed.

(** X21. What the constructor establishes: after [init()] on a store with
    distinct keys, every cache key holds an entry that parses and had not
    expired at the time of the clock reading, and the cache entries take at
    most [maxCacheSize] bytes. *)
Theorem init_establishes_cache_invariants (w : World Data) :
  let now := clock w (reads w) in
  let after := storage (snd (init m w)) in
  0 <= maxCacheSize m ->
  distinct_keys (storage w) ->
  fst (init m w) = Normal tt /\
  distinct_keys after /\
  parseable m after /\
  (forall k e, In (k, Entry e) after -> is_cache_key m k = true -> now <= expires e) /\
  totalSize (fst (getStorageInfo m after)) <= maxCacheSize m.
Proof.
  intros now after HB Hnd.
  set (cleaned := filter (fun kv => negb (is_stale m now kv)) (storage w)).
  assert (Ha : after = enforceStorageLimit m cleaned).
  { unfold after, init, bind.
    pose proof (cleanupExpiredCache_storage w Hnd) as Hc.
    unfold cleanupExpiredCache, bind, Date_now, on_storage in *.
    cbn [storage clock reads setItem_calls snd fst] in *. now rewrite Hc. }
  assert (Hcp : parseable m cleaned).
  { intros k raw Hin. apply filter_In in Hin as [_ Hs].
    unfold is_stale in Hs. cbn [fst snd] in Hs.
    rewrite andb_true_r in Hs. now apply negb_true_iff in Hs. }
  assert (Hcd : distinct_keys cleaned) by now apply distinct_filter.
  destruct (enforceStorageLimit_fits m cleaned HB Hcd Hcp) as (Hfit & Hp' & Hnd').
  rewrite <- Ha in *.
  split; [reflexivity|]. split; [exact Hnd'|]. split; [exact Hp'|]. split.
  - intros k e Hin Hck.
    destruct (enforceStorageLimit_removes m cleaned) as [gone Hg].
    rewrite Ha, Hg in Hin. apply remove_keys_In in Hin as [Hin _].
    apply filter_In in Hin as [_ Hs].
    unfold is_stale in Hs. cbn [fst snd] in Hs. rewrite Hck in Hs. cbn in Hs.
    apply negb_true_iff in Hs.
    destruct (Z.gtb_spec now (expires e)); [discriminate | lia].
  - rewrite (getStorageInfo_parseable m after Hp'). exact Hfit.
Qed.

(** X22. [getCachePriority] takes the first pattern of the table that
    the key contains, in the order the table is written: a later pattern
    that the key contains as well is ignored. *)
Theorem getCachePriority_first_match_wins key earlier pattern p later :
  cachePriorities m = earlier ++ (pattern, p) :: later ->
  (forall q r, In (q, r) earlier -> includes q key = false) ->
  includes pattern key = true ->
  getCachePriority m key = p.
Proof.
  intros Htable Hnone Hhit. unfold getCachePriority. rewrite Htable.
  clear Htable. induction earlier as [|[q r] earlier IH]; simpl.
  - now rewrite Hhit.
  - rewrite (Hnone q r) by now left.
    apply IH. intros q' r' Hin. apply (Hnone q' r'). now right.
Qed.

End CacheSweeps.

(** * Properties of the bulk write and of the migration *)

Section CacheBulkFacts.
Context {Data : Type} `{Browser Data}.
Variable m : Manager.

Lemma set_returns_boolean key d options (w : World Data) :
  json_bytes d <> None ->
  exists b w1, set m key d options w = (Normal b, w1).
Proof.
  intros Hj. destruct (json_bytes d) as [n|] eqn:E; [|congruence].
  destruct (make_entry_succeeds m key d options w n E) as [e [w1 Hm]].
  destruct (setItem_ok (storage w1) (cachePrefix m ++ key)%string (Entry e)) eqn:Hok.
  - rewrite (set_written m key d options w e w1 Hm Hok). do 2 eexists. reflexivity.
  - rewrite (set_refused m key d options w e w1 Hm Hok). cbv zeta.
    destruct (setItem_ok (clearLowPriorityCache m (storage w1)) _ _);
      do 2 eexists; reflexivity.
Qed.

Lemma setMultiple_loop_app front : forall back results (w : World Data) r w',
  setMultiple_loop m front results w = (Normal r, w') ->
  setMultiple_loop m (front ++ back) results w = setMultiple_loop m back r w'.
Proof.
  induction front as [|[[key d] options] front IH]; intros back results w r w' Hrun.
  - cbn in Hrun. injection Hrun as <- <-. reflexivity.
  - cbn [setMultiple_loop app] in *. unfold bind in *.
    destruct (set m key d options w) as [[b|] w1]; [|discriminate].
    now apply IH.
Qed.

Lemma setMultiple_loop_all entries : forall results (w : World Data),
  Forall serialisable entries ->
  exists new w',
    setMultiple_loop m entries results w = (Normal (results ++ new), w') /\
    map fst new = map entry_key entries.
Proof.
  induction entries as [|[[key d] options] entries IH]; intros results w Hall.
  - exists [], w. cbn. now rewrite app_nil_r.
  - inversion Hall as [|? ? Hd Hrest]; subst.
    destruct (set_returns_boolean key d options w Hd) as [b [w1 Hset]].
    destruct (IH (results ++ [(key, b)]) w1 Hrest) as [new [w' [Hrun Hkeys]]].
    exists ((key, b) :: new), w'. cbn [setMultiple_loop]. unfold bind.
    rewrite Hset, Hrun, <- app_assoc. cbn. now rewrite Hkeys.
Qed.

(** X23. When every payload can be serialised, [setMultiple(entries)]
    returns one result for each entry, with the keys of the entries in
    their order; it does not throw, whatever the store and the quota. *)
Theorem setMultiple_reports_every_entry entries (w : World Data) :
  Forall serialisable entries ->
  exists results,
    fst (setMultiple m entries w) = Normal results /\
    map fst results = map entry_key entries.
Proof.
  intros Hall. unfold setMultiple.
  destruct (setMultiple_loop_all entries [] w Hall) as [new [w' [Hrun Hkeys]]].
  exists new. rewrite Hrun. now split.
Qed.

(** X24. A payload that cannot be serialised aborts the batch: the
    exception leaves [setMultiple], no result is returned, not even for the
    entries already written, and the entries after the rejected one are
    never attempted. The store is the one the entries before it left. *)
Theorem setMultiple_aborts_at_rejected_payload front key d options back
        (w : World Data) :
  Forall serialisable front ->
  json_bytes d = None ->
  let batch := setMultiple m (front ++ (key, d, options) :: back) w in
  fst batch = Throw /\
  storage (snd batch) = storage (snd (setMultiple m front w)) /\
  setItem_calls (snd batch) = setItem_calls (snd (setMultiple m front w)).
Proof.
  intros Hall Hj batch. subst batch. unfold setMultiple.
  destruct (setMultiple_loop_all front [] w Hall) as [new [w' [Hrun _]]].
  rewrite (setMultiple_loop_app front _ [] w _ w' Hrun), Hrun.
  cbn [setMultiple_loop snd]. unfold bind.
  destruct (set_throws m key d options w' Hj) as (Ht & Hs & Hc).
  destruct (set m key d options w') as [[b|] w1]; cbn in *; [discriminate|].
  now repeat split.
Qed.

Lemma putItem_existing_keys k v (st : Store Data) :
  In k (map fst st) -> map fst (putItem k v st) = map fst st.
Proof.
  intros Hin. rewrite putItem_keys.
  assert (E : existsb (String.eqb k) (map fst st) = true).
  { apply existsb_exists. exists k. split; [exact Hin | apply String.eqb_refl]. }
  now rewrite E.
Qed.

Lemma migrate_key_keys oldVersion migration key (w : World Data) :
  In key (map fst (storage w)) ->
  fst (migrate_key oldVersion migration key w) = Normal tt /\
  map fst (storage (snd (migrate_key oldVersion migration key w)))
  = map fst (storage w).
Proof.
  intros Hin.
  unfold migrate_key, try_catch, bind, localStorage_getItem, on_storage,
    JSON_parse, JSON_stringify, localStorage_setItem, ret, throw.
  cbn [storage clock reads setItem_calls fst snd].
  destruct (getItem key (storage w)) as [[e|raw]|]; cbn; try (now split).
  destruct (String.eqb (version e) oldVersion); cbn; try (now split).
  destruct (migration (data e)) as [d|]; cbn; try (now split).
  destruct (json_bytes d); cbn; try (now split).
  destruct (setItem_ok (storage w) key (Entry (migrated e d))); cbn; try (now split).
  split; [reflexivity | now apply putItem_existing_keys].
Qed.

Lemma migrate_scan_keys oldVersion migration fuel : forall i (w : World Data),
  fst (migrate_scan m oldVersion migration fuel i w) = Normal tt /\
  map fst (storage (snd (migrate_scan m oldVersion migration fuel i w)))
  = map fst (storage w).
Proof.
  induction fuel as [|fuel IH]; intros i w; [now split|].
  cbn [migrate_scan].
  destruct (nth_error (storage w) i) as [[key value]|] eqn:E; [|now split].
  assert (Hin : In key (map fst (storage w))).
  { apply nth_error_In in E. change key with (fst (key, value)). now apply in_map. }
  unfold bind. destruct (is_cache_key m key).
  - destruct (migrate_key_keys oldVersion migration key w Hin) as [Hr Hk].
    destruct (migrate_key oldVersion migration key w) as [[[]|] w1];
      cbn in Hr, Hk; [|discriminate].
    destruct (IH (S i) w1) as [Hr' Hk']. split; [exact Hr' | congruence].
  - cbn. apply IH.
Qed.

(** X25. [migrateCache(migrations)] never throws, whatever the migration
    functions and the quota do, and it neither adds, removes nor reorders a
    key of [localStorage]. *)
Theorem migrateCache_keeps_every_key migrations : forall w : World Data,
  fst (migrateCache m migrations w) = Normal tt /\
  map fst (storage (snd (migrateCache m migrations w))) = map fst (storage w).
Proof.
  induction migrations as [|[oldVersion migration] rest IH]; intros w; [now split|].
  cbn [migrateCache]. unfold bind.
  destruct (migrate_scan_keys oldVersion migration (List.length (storage w)) 0 w)
    as [Hr Hk].
  destruct (migrate_scan m oldVersion migration (List.length (storage w)) 0 w)
    as [[[]|] w1]; cbn in Hr, Hk; [|discriminate].
  destruct (IH w1) as [Hr' Hk']. split; [exact Hr' | congruence].
Qed.

(** The loop ends by itself: more fuel than the length of the store
    changes nothing. *)
Lemma migrate_scan_fuel_enough oldVersion migration fuel : forall i (w : World Data),
  (List.length (storage w) <= i + fuel)%nat ->
  migrate_scan m oldVersion migration (S fuel) i w
  = migrate_scan m oldVersion migration fuel i w.
Proof.
  induction fuel as [|fuel IH]; intros i w Hlen.
  - cbn [migrate_scan].
    assert (E : nth_error (storage w) i = None) by (apply nth_error_None; lia).
    now rewrite E.
  - change (migrate_scan m oldVersion migration (S (S fuel)) i w)
      with (match nth_error (storage w) i with
            | None => (Normal tt, w)
            | Some (key, _) =>
                bind (if is_cache_key m key then migrate_key oldVersion migration key
                      else ret tt)
                     (fun _ => migrate_scan m oldVersion migration (S fuel) (S i)) w
            end).
    change (migrate_scan m oldVersion migration (S fuel) i w)
      with (match nth_error (storage w) i with
            | None => (Normal tt, w)
            | Some (key, _) =>
                bind (if is_cache_key m key then migrate_key oldVersion migration key
                      else ret tt)
                     (fun _ => migrate_scan m oldVersion migration fuel (S i)) w
            end).
    destruct (nth_error (storage w) i) as [[key value]|] eqn:E; [|reflexivity].
    assert (Hi : (i < List.length (storage w))%nat)
      by (apply nth_error_Some; rewrite E; discriminate).
    assert (Hin : In key (map fst (storage w))).
    { apply nth_error_In in E. change key with (fst (key, value)). now apply in_map. }
    unfold bind. destruct (is_cache_key m key).
    + destruct (migrate_key_keys oldVersion migration key w Hin) as [_ Hk].
      destruct (migrate_key oldVersion migration key w) as [[[]|] w1];
        [|reflexivity].
      apply IH. cbn [snd] in Hk.
      assert (List.length (storage w1) = List.length (storage w))
        by (rewrite <- (length_map fst (storage w1)), Hk; apply length_map).
      lia.
    + unfold ret. cbv beta iota. apply IH. lia.
Qed.

Lemma putItem_middle k v v0 (front back : Store Data) :
  ~ In k (map fst front) ->
  putItem k v (front ++ (k, v0) :: back) = front ++ (k, v) :: back.
Proof.
  induction front as [|[k' v'] front IH]; intros Hnot; simpl.
  - now rewrite String.eqb_refl.
  - destruct (String.eqb_spec k k') as [->|Hne].
    + exfalso. apply Hnot. now left.
    + f_equal. apply IH. intros Hin. apply Hnot. now right.
Qed.

Lemma migrate_key_exact oldVersion migration k v (front back : Store Data)
      (w : World Data) :
  (forall st k' v', setItem_ok st k' v' = true) ->
  distinct_keys (storage w) ->
  storage w = front ++ (k, v) :: back ->
  is_cache_key m k = true ->
  storage (snd (migrate_key oldVersion migration k w))
  = front ++ migrate_pair m oldVersion migration (k, v) :: back.
Proof.
  intros Hall Hnd Hst Hck.
  assert (Hg : getItem k (storage w) = Some v).
  { apply distinct_getItem; [exact Hnd|]. rewrite Hst. apply in_or_app. right. now left. }
  assert (Hfront : ~ In k (map fst front)).
  { unfold distinct_keys in Hnd. rewrite Hst, map_app in Hnd. cbn in Hnd.
    apply NoDup_remove_2 in Hnd. intros Hin. apply Hnd, in_or_app. now left. }
  unfold migrate_pair. cbn [fst snd]. rewrite Hck.
  unfold migrate_key, try_catch, bind, localStorage_getItem, on_storage,
    JSON_parse, JSON_stringify, localStorage_setItem, ret, throw.
  cbn [storage clock reads setItem_calls fst snd]. rewrite Hg.
  destruct v as [e|raw]; cbn; [|exact Hst].
  destruct (String.eqb (version e) oldVersion); cbn; [|exact Hst].
  destruct (migration (data e)) as [d|]; cbn; [|exact Hst].
  destruct (json_bytes d); cbn; [|exact Hst].
  rewrite Hall. cbn. rewrite Hst. now apply putItem_middle.
Qed.

Lemma migrate_pair_key oldVersion migration kv :
  fst (migrate_pair m oldVersion migration kv) = fst kv.
Proof.
  unfold migrate_pair. destruct (is_cache_key m (fst kv)); [|reflexivity].
  destruct (snd kv) as [e|raw]; [|reflexivity].
  destruct (String.eqb (version e) oldVersion); [|reflexivity].
  destruct (migration (data e)) as [d|]; [|reflexivity].
  now destruct (json_bytes d).
Qed.

Lemma migrate_scan_exact oldVersion migration todo :
  forall (front : Store Data) fuel (w : World Data),
    (forall st k v, setItem_ok st k v = true) ->
    distinct_keys (storage w) ->
    storage w = front ++ todo ->
    (List.length todo <= fuel)%nat ->
    storage (snd (migrate_scan m oldVersion migration fuel (List.length front) w))
    = front ++ map (migrate_pair m oldVersion migration) todo.
Proof.
  induction todo as [|[k v] todo IH]; intros front fuel w Hall Hnd Hst Hfuel.
  - assert (E : nth_error (storage w) (List.length front) = None).
    { apply nth_error_None. rewrite Hst, app_nil_r. lia. }
    destruct fuel; cbn [migrate_scan map]; [|rewrite E]; exact Hst.
  - destruct fuel as [|fuel]; [cbn in Hfuel; lia|].
    cbn [migrate_scan].
    assert (E : nth_error (storage w) (List.length front) = Some (k, v)).
    { rewrite Hst, nth_error_app2 by lia. now rewrite Nat.sub_diag. }
    rewrite E. unfold bind.
    set (pair' := migrate_pair m oldVersion migration (k, v)).
    assert (Hstep : exists w1,
               (if is_cache_key m k then migrate_key oldVersion migration k else ret tt) w
               = (Normal tt, w1) /\
               storage w1 = front ++ pair' :: todo).
    { destruct (is_cache_key m k) eqn:Hck.
      - assert (Hin : In k (map fst (storage w))).
        { rewrite Hst, map_app. apply in_or_app. right. now left. }
        destruct (migrate_key_keys oldVersion migration k w Hin) as [Hr _].
        pose proof (migrate_key_exact oldVersion migration k v front todo w
                      Hall Hnd Hst Hck) as Hs.
        destruct (migrate_key oldVersion migration k w) as [[[]|] w1];
          cbn in Hr; [|discriminate].
        exists w1. now split.
      - exists w. split; [reflexivity|].
        unfold pair', migrate_pair. cbn [fst]. now rewrite Hck. }
    destruct Hstep as [w1 [-> Hs1]].
    assert (Hs1' : storage w1 = (front ++ [pair']) ++ todo)
      by (rewrite <- app_assoc; exact Hs1).
    assert (Hnd1 : distinct_keys (storage w1)).
    { unfold distinct_keys in *. rewrite Hs1, map_app. cbn [map].
      unfold pair'. rewrite migrate_pair_key. cbn [fst].
      rewrite Hst, map_app in Hnd. exact Hnd. }
    pose proof (IH (front ++ [pair']) fuel w1 Hall Hnd1 Hs1') as Hrest.
    rewrite length_app in Hrest. cbn [List.length] in Hrest.
    replace (List.length front + 1)%nat with (S (List.length front)) in Hrest by lia.
    rewrite Hrest by (cbn in Hfuel; lia).
    rewrite <- app_assoc. reflexivity.
Qed.

(** X26. In a browser that accepts every write, one migration turns a
    store with distinct keys into the store where each cache entry of the
    old version carries the migrated data and version ['1.0'], with its
    [size] field and every other field unchanged; entries of other
    versions, texts that do not parse, keys outside the cache namespace and
    entries whose migration throws are left as they were. *)
Theorem migrateCache_rewrites_old_version oldVersion migration (w : World Data) :
  (forall st k v, setItem_ok st k v = true) ->
  distinct_keys (storage w) ->
  storage (snd (migrateCache m [(oldVersion, migration)] w))
  = map (migrate_pair m oldVersion migration) (storage w).
Proof.
  intros Hall Hnd. cbn [migrateCache]. unfold bind.
  pose proof (migrate_scan_exact oldVersion migration (storage w) []
                (List.length (storage w)) w Hall Hnd eq_refl (Nat.le_refl _)) as Hs.
  cbn [List.length app] in Hs.
  destruct (migrate_scan m oldVersion migration (List.length (storage w)) 0 w)
    as [[[]|] w1]; exact Hs.
Qed.

End CacheBulkFacts.

(** * Properties of the timestamped cache and of [makeRequest] *)

Module SimpleCacheFacts.
Import SimpleCache.

Section Facts.
Context {Data : Type}.

Lemma lookup_put_same k (v : Value Data) l : lookup k (put k v l) = Some v.
Proof.
  induction l as [|[k' v'] l IH]; simpl.
  - now rewrite String.eqb_refl.
  - destruct (String.eqb_spec k k') as [->|Hne]; simpl.
    + now rewrite String.eqb_refl.
    + destruct (String.eqb_spec k k'); [contradiction | exact IH].
Qed.

(** What is read back after an accepted write. *)
Lemma getCachedData_after_set key (d : Data) written now maxAgeMinutes st :
  accepts st (pairs st) ("cache_" ++ key)%string (createCacheItem written d) = true ->
  written <> 0 ->
  fst (setCachedData written key d st) = true /\
  getCachedData now key maxAgeMinutes (snd (setCachedData written key d st))
  = if now - written <=? maxAgeMinutes * 60 * 1000 then Some d else None.
Proof.
  intros Hok Hw. unfold setCachedData, StorageUtils_set. rewrite Hok. cbn [fst snd].
  split; [reflexivity|].
  unfold getCachedData, StorageUtils_get. cbn [pairs].
  rewrite lookup_put_same. unfold isExpired, createCacheItem.
  cbn [item_timestamp item_data].
  destruct (Z.eqb_spec written 0); [contradiction|].
  rewrite Z.gtb_ltb, Z.leb_antisym.
  now destruct (maxAgeMinutes * 60 * 1000 <? now - written).
Qed.

(** X27. Round trip of [CacheUtils]: after an accepted
    [setCachedData(key, d)] at a time other than 0, [getCachedData(key,
    maxAgeMinutes)] returns [d] as long as the age is at most
    [maxAgeMinutes] minutes, the bound included, and [null] afterwards. *)
Theorem setCachedData_then_getCachedData key (d : Data) written now maxAgeMinutes st :
  accepts st (pairs st) ("cache_" ++ key)%string (createCacheItem written d) = true ->
  written <> 0 ->
  fst (setCachedData written key d st) = true /\
  getCachedData now key maxAgeMinutes (snd (setCachedData written key d st))
  = if now - written <=? maxAgeMinutes * 60 * 1000 then Some d else None.
Proof. apply getCachedData_after_set. Qed.

End Facts.
End SimpleCacheFacts.

Module ApiServiceFacts.
Import ApiService.

Section Facts.
Context {Data : Type} `{Body Data}.

(** X28. When no usable cached data is found and the limiter refuses,
    [makeRequest] fails with status 429 and the time until reset of the
    pruned limiter, without calling [fetch], without recording a request
    and without touching the cache. *)
Theorem makeRequest_refused_by_limiter env endpoint cacheKey cacheDuration
        (svc : Service Data) :
  let result := makeRequest env endpoint cacheKey cacheDuration svc in
  cache_hit env cacheKey cacheDuration svc = None ->
  fst (RateLimiter.canMakeRequest (now_check env) (limiter svc) (slot svc)) = false ->
  outcome result
  = Failed {| status := 429;
              message := RateLimitExceeded
                           (RateLimiter.getTimeUntilReset (now_reset env)
                              (limiter (service result)));
              endpoint := endpoint |} /\
  fetch_called result = false /\
  RateLimiter.requests (limiter (service result)) = in_window env svc /\
  cache (service result) = cache svc.
Proof.
  intros result Hmiss Hno. subst result. unfold makeRequest. rewrite Hmiss.
  unfold RateLimiter.canMakeRequest in *. cbn [fst] in Hno.
  destruct (RateLimiter.cleanOldRequests (now_check env) (limiter svc) (slot svc))
    as [lim sl] eqn:E.
  pose proof (RateLimiterFacts.cleanOldRequests_keeps
                (now_check env) (limiter svc) (slot svc)) as Hk.
  rewrite E in Hk. cbn [fst snd] in *. rewrite Hno. cbn.
  repeat split. exact Hk.
Qed.

(** X29. When no usable cached data is found, the limiter allows the
    call and the URL is valid, [makeRequest] records exactly one request
    before it calls [fetch], whatever [fetch] settles to: a failed request
    spends quota like a successful one. The call never ends in a
    [TypeError], and when it fails the cache is left as it was. *)
Theorem makeRequest_allowed_spends_one_request env endpoint cacheKey cacheDuration
        (svc : Service Data) :
  let result := makeRequest env endpoint cacheKey cacheDuration svc in
  cache_hit env cacheKey cacheDuration svc = None ->
  fst (RateLimiter.canMakeRequest (now_check env) (limiter svc) (slot svc)) = true ->
  url_ok env = true ->
  fetch_called result = true /\
  RateLimiter.requests (limiter (service result)) = in_window env svc ++ [now_record env] /\
  outcome result <> BadUrl /\
  (forall e, outcome result = Failed e ->
             cache (service result) = cache svc /\
             (status e = 0 \/
              exists r, fetched env = Resolved r /\ response_ok r = false /\
                        status e = response_status r)).
Proof.
  intros result Hmiss Hyes Hurl. subst result. unfold makeRequest. rewrite Hmiss.
  unfold RateLimiter.canMakeRequest in *. cbn [fst] in Hyes.
  destruct (RateLimiter.cleanOldRequests (now_check env) (limiter svc) (slot svc))
    as [lim sl] eqn:E.
  pose proof (RateLimiterFacts.cleanOldRequests_keeps
                (now_check env) (limiter svc) (slot svc)) as Hk.
  rewrite E in Hk. cbn [fst snd] in *. rewrite Hyes, Hurl. cbn [negb].
  unfold RateLimiter.recordRequest, in_window. rewrite <- Hk.
  destruct (fetched env) as [r|text] eqn:Ef.
  - destruct (response_ok r) eqn:Eok; cbn [negb].
    + destruct (response_json r) as [d|text]; cbn.
      * split; [reflexivity|].
        split; [destruct (truthyS cacheKey); reflexivity|].
        split; [discriminate|]. intros e Ee. discriminate Ee.
      * split; [reflexivity|]. split; [reflexivity|].
        split; [discriminate|]. intros e Ee. injection Ee as <-.
        split; [reflexivity|]. left. unfold network_error.
        now destruct (onLine env).
    + cbn. split; [reflexivity|]. split; [reflexivity|].
      split; [discriminate|]. intros e Ee. injection Ee as <-.
      split; [reflexivity|]. right. now exists r.
  - cbn. split; [reflexivity|]. split; [reflexivity|].
    split; [discriminate|]. intros e Ee. injection Ee as <-.
    split; [reflexivity|]. left. unfold network_error. now destruct (onLine env).
Qed.

(** X30. A successful call with a cache key whose write is accepted
    pays for the next one: a second [makeRequest] with the same key, while
    the data is at most [cacheDuration] minutes old, returns the same data
    without calling [fetch] and without touching the limiter. *)
Theorem makeRequest_then_served_from_cache env env' endpoint key cacheDuration d r
        (svc : Service Data) :
  let first := makeRequest env endpoint (Some key) cacheDuration svc in
  let second := makeRequest env' endpoint (Some key) cacheDuration (service first) in
  key <> ""%string ->
  cache_hit env (Some key) cacheDuration svc = None ->
  fst (RateLimiter.canMakeRequest (now_check env) (limiter svc) (slot svc)) = true ->
  url_ok env = true ->
  fetched env = Resolved r ->
  response_ok r = true ->
  response_json r = Parsed d ->
  truthy d = true ->
  SimpleCache.accepts (cache svc) (SimpleCache.pairs (cache svc))
    ("cache_" ++ key)%string (SimpleCache.createCacheItem (now_store env) d) = true ->
  now_store env <> 0 ->
  now_cache env' - now_store env <= cacheDuration * 60 * 1000 ->
  outcome first = Returned d /\
  outcome second = Returned d /\
  fetch_called second = false /\
  service second = service first.
Proof.
  intros first second Hkey Hmiss Hyes Hurl Hf Hok Hjson Htruthy Hacc Hnow Hfresh.
  assert (Htk : truthyS (Some key) = Some key)
    by (destruct key; [exfalso; now apply Hkey | reflexivity]).
  assert (Hfirst : outcome first = Returned d /\
                   cache (service first)
                   = snd (SimpleCache.setCachedData (now_store env) key d (cache svc))).
  { subst first. unfold makeRequest. rewrite Hmiss.
    unfold RateLimiter.canMakeRequest in *. cbn [fst] in Hyes.
    destruct (RateLimiter.cleanOldRequests (now_check env) (limiter svc) (slot svc))
      as [lim sl].
    cbn [fst snd] in *. rewrite Hyes, Hurl, Hf, Hok, Hjson, Htk. cbn. now split. }
  destruct Hfirst as [Ho Hc]. split; [exact Ho|].
  destruct (SimpleCacheFacts.getCachedData_after_set key d (now_store env)
              (now_cache env') cacheDuration (cache svc) Hacc Hnow) as [_ Hget].
  assert (Hhit : cache_hit env' (Some key) cacheDuration (service first) = Some d).
  { unfold cache_hit. rewrite Htk, Hc, Hget.
    destruct (Z.leb_spec (now_cache env' - now_store env) (cacheDuration * 60 * 1000));
      [|lia].
    now rewrite Htruthy. }
  subst second. unfold makeRequest. rewrite Hhit. cbn. repeat split.
Qed.

End Facts.
End ApiServiceFacts.

(** * Further worked examples *)

Module ExtraExamples.
Import Scenario ExtraScenario.
Import Examples.

Ltac texts_are_foreign :=
  let k := fresh "k" in let raw := fresh "raw" in let Hin := fresh "Hin" in
  intros k raw Hin; vm_compute in Hin;
  repeat (destruct Hin as [Hin|Hin];
          [first [discriminate Hin | injection Hin as <- <-; reflexivity]|]);
  contradiction.

(** One remaining request of three; recording at time 500 leaves none. *)
Lemma recordRequest_takes_one_remaining_example :
  let before := RateLimiter.getRemainingRequests 500 two_of_three RateLimiter.empty_slot in
  let recorded := RateLimiter.recordRequest 500 (fst (snd before)) (snd (snd before)) in
  fst before = 1 /\
  fst (RateLimiter.getRemainingRequests 500 (fst recorded) (snd recorded)) = 0.
Proof.
  cbv zeta. split; [compute_it|].
  rewrite (RateLimiterExtras.recordRequest_takes_one_remaining
             500 500 two_of_three RateLimiter.empty_slot); compute_it.
Defined.

(** The spent limiter refuses at time 500 and asks to wait 500 ms. *)
Lemma refused_request_waits_within_window_example :
  let pruned :=
    fst (snd (RateLimiter.canMakeRequest 500 three_of_three RateLimiter.empty_slot)) in
  0 < RateLimiter.getTimeUntilReset 500 pruned <= 1000.
Proof.
  apply (RateLimiterExtras.refused_request_waits_within_window
           500 three_of_three RateLimiter.empty_slot).
  - compute_it.
  - compute_it.
  - intros t Ht. vm_compute in Ht.
    repeat (destruct Ht as [<-|Ht]; [lia|]). contradiction.
Defined.

(** A request recorded at time 300 is known to the limiter built at 400. *)
Lemma recordRequest_survives_reload_example :
  RateLimiter.requests
    (fst (RateLimiter.new per_second 400
            (snd (RateLimiter.recordRequest 300 two_of_three RateLimiter.empty_slot))))
  = [0; 100; 300].
Proof.
  rewrite (RateLimiterExtras.recordRequest_survives_reload
             300 400 two_of_three RateLimiter.empty_slot per_second); compute_it.
Defined.

(** With a slot that refuses the write the reloaded limiter knows nothing. *)
Lemma recordRequest_refused_write_is_forgotten_example :
  RateLimiter.requests (fst (RateLimiter.recordRequest 300 two_of_three full_slot))
  = [0; 100; 300] /\
  RateLimiter.requests
    (fst (RateLimiter.new per_second 400
            (snd (RateLimiter.recordRequest 300 two_of_three full_slot))))
  = [].
Proof.
  destruct (RateLimiterExtras.recordRequest_refused_write_is_forgotten
              300 400 two_of_three full_slot per_second) as (Hm & _ & Hr).
  - compute_it.
  - split; [exact Hm | rewrite Hr; compute_it].
Defined.

(** A hit at time 2000 on the entry written at time 1000. *)
Lemma get_hit_returns_payload_and_touches_example :
  let call := @get Payload roomy default_manager "apod" {| get_version := None |}
                   (world_at 2000 apod_store) in
  fst call = Normal (Some (Letters 10)) /\
  getItem "cosmos_connect_apod" (storage (snd call))
  = Some (Entry (touch apod_entry 2000)).
Proof.
  cbv zeta.
  destruct (@get_hit_returns_payload_and_touches Payload roomy default_manager
              "apod" {| get_version := None |} (world_at 2000 apod_store) apod_entry)
    as (Hr & _ & Hg & _).
  - compute_it.
  - compute_it.
  - compute_it.
  - compute_it.
  - compute_it.
  - split; [exact Hr | exact Hg].
Defined.

(** Asking for version 2.0 of an entry of version 1.0. *)
Lemma get_version_mismatch_is_miss_and_delete_example :
  let call := @get Payload roomy default_manager "apod" {| get_version := Some "2.0" |}
                   (world_at 2000 apod_store) in
  fst call = Normal None /\ storage (snd call) = [].
Proof.
  cbv zeta.
  destruct (@get_version_mismatch_is_miss_and_delete Payload roomy default_manager
              "apod" {| get_version := Some "2.0" |} (world_at 2000 apod_store) apod_entry)
    as (Hr & Ha & _).
  - compute_it.
  - compute_it.
  - compute_it.
  - split; [exact Hr | rewrite Ha; compute_it].
Defined.

(** A text that does not parse is removed by the read. *)
Lemma get_unparseable_is_miss_example :
  let call := @get Payload roomy default_manager "apod" {| get_version := None |}
                   (world_at 2000 garbled_store) in
  fst call = Normal None /\ storage (snd call) = [].
Proof.
  cbv zeta.
  destruct (@get_unparseable_is_miss Payload roomy default_manager
              "apod" {| get_version := None |} (world_at 2000 garbled_store) "{")
    as (Hr & Hs).
  - compute_it.
  - split; [exact Hr | rewrite Hs; compute_it].
Defined.

(** The report on a low priority entry, a key of the application and
    entry A: two items, A first, 822 bytes, and the store is untouched. *)
Lemma getStorageInfo_report_is_consistent_example :
  let report := @getStorageInfo Payload roomy default_manager two_priorities in
  snd report = two_priorities /\
  map item_priority (items (fst report)) = [90; 20] /\
  itemCount (fst report) = 2 /\
  totalSize (fst report) = 822.
Proof.
  cbv zeta.
  destruct (@getStorageInfo_report_is_consistent Payload roomy default_manager
              two_priorities) as (Hstore & _ & _ & Hcount & Htotal & _).
  - texts_are_foreign.
  - split; [exact Hstore|]. split; [compute_it|].
    split; [rewrite Hcount | rewrite Htotal]; compute_it.
Defined.

(** Entry B stays although [getStorageInfo] removes the text before A. *)
Lemma getStorageInfo_keeps_entries_and_foreign_keys_example :
  getItem "cosmos_connect_B"
    (snd (@getStorageInfo Payload roomy m1000 store_with_garbage))
  = Some (Entry entry_B).
Proof.
  apply (@getStorageInfo_keeps_entries_and_foreign_keys Payload roomy m1000
           store_with_garbage "cosmos_connect_B" (Entry entry_B)).
  - keys_are_distinct.
  - compute_it.
  - right. now exists entry_B.
Defined.

(** The store of A and B under a budget of 1000 bytes. *)
Lemma enforceStorageLimit_settles_example :
  let st := putItem "cosmos_connect_B" (Entry entry_B) (storage world_A) in
  totalSize (fst (@getStorageInfo Payload roomy m1000
                    (@enforceStorageLimit Payload roomy m1000 st))) <= 1000 /\
  @enforceStorageLimit Payload roomy m1000 (@enforceStorageLimit Payload roomy m1000 st)
  = @enforceStorageLimit Payload roomy m1000 st.
Proof.
  cbv zeta.
  destruct (@enforceStorageLimit_settles Payload roomy m1000
              (putItem "cosmos_connect_B" (Entry entry_B) (storage world_A)))
    as (Hfit & _ & Hidem).
  - compute_it.
  - keys_are_distinct.
  - all_parse.
  - split; [exact Hfit | exact Hidem].
Defined.

(** Writing B over the budget of 1000 bytes leaves at most 1000 bytes. *)
Lemma set_accepted_write_keeps_budget_example :
  let call := @set Payload roomy m1000 "B" (Letters 478) priority_10 world_A in
  fst call = Normal true /\
  totalSize (fst (@getStorageInfo Payload roomy m1000 (storage (snd call)))) <= 1000.
Proof.
  cbv zeta.
  destruct (@set_accepted_write_keeps_budget Payload roomy m1000
              "B" (Letters 478) priority_10 world_A entry_B
              (snd (@make_entry Payload roomy m1000 "B" (Letters 478) priority_10 world_A)))
    as (Hr & Hfit & _).
  - compute_it.
  - keys_are_distinct.
  - all_parse.
  - compute_it.
  - compute_it.
  - split; [exact Hr | exact Hfit].
Defined.

(** Write ten letters, read them back. *)
Lemma set_then_get_returns_payload_example :
  let w := world_at 1000 [] in
  let w2 := snd (@set Payload roomy default_manager "apod" (Letters 10) no_options w) in
  fst (@get Payload roomy default_manager "apod" {| get_version := None |} w2)
  = Normal (Some (Letters 10)).
Proof.
  cbv zeta.
  destruct (@set_then_get_returns_payload Payload roomy default_manager
              "apod" (Letters 10) no_options (world_at 1000 []) apod_entry
              (snd (@make_entry Payload roomy default_manager "apod" (Letters 10)
                      no_options (world_at 1000 []))))
    as (_ & Hg).
  - all_parse.
  - compute_it.
  - compute_it.
  - compute_it.
  - compute_it.
  - compute_it.
  - exact Hg.
Defined.

(** The sweep removes the exoplanets entry and nothing else. *)
Lemma clearLowPriorityCache_removes_exactly_low_example :
  @clearLowPriorityCache Payload roomy default_manager two_priorities
  = [("app_theme", Text "dark"); ("cosmos_connect_A", Entry entry_A)].
Proof.
  rewrite (@clearLowPriorityCache_removes_exactly_low Payload roomy default_manager
             two_priorities).
  - compute_it.
  - keys_are_distinct.
  - texts_are_foreign.
Defined.

(** At time 2000 the entry that expired at 1500 is swept. *)
Lemma cleanupExpiredCache_leaves_live_entries_example :
  storage (snd (@cleanupExpiredCache Payload default_manager
                  (world_at 2000 short_lived))) = [].
Proof.
  destruct (@cleanupExpiredCache_leaves_live_entries Payload default_manager
              (world_at 2000 short_lived)) as (_ & Ha & _).
  - keys_are_distinct.
  - rewrite Ha. compute_it.
Defined.

(** The constructor on a store that holds a text that does not parse. *)
Lemma init_establishes_cache_invariants_example :
  let after := storage (snd (@init Payload roomy default_manager
                               (world_at 2000 store_with_garbage))) in
  parseable default_manager after /\
  totalSize (fst (@getStorageInfo Payload roomy default_manager after)) <= 52428800.
Proof.
  cbv zeta.
  destruct (@init_establishes_cache_invariants Payload roomy default_manager
              (world_at 2000 store_with_garbage)) as (_ & _ & Hp & _ & Hfit).
  - compute_it.
  - keys_are_distinct.
  - split; [exact Hp | exact Hfit].
Defined.

(** A key that contains [favorites] and [exoplanets] gets priority 90. *)
Lemma getCachePriority_first_match_wins_example :
  includes "exoplanets" "favorites_exoplanets" = true /\
  getCachePriority default_manager "favorites_exoplanets" = 90.
Proof.
  split; [compute_it|].
  apply (getCachePriority_first_match_wins default_manager
           "favorites_exoplanets" [("user_preferences", 100)] "favorites" 90
           [ ("recent_searches", 80); ("apod_data", 70); ("mars_weather", 60);
             ("asteroids", 50); ("space_weather", 40); ("rover_photos", 30);
             ("exoplanets", 20) ]).
  - reflexivity.
  - intros q r [E|[]]. injection E as <- <-. compute_it.
  - compute_it.
Defined.

(** A batch of two entries gives two results, in order. *)
Lemma setMultiple_reports_every_entry_example :
  exists results,
    fst (@setMultiple Payload roomy default_manager [batch_a; batch_c]
           (world_at 1000 [])) = Normal results /\
    map fst results = ["a"; "c"].
Proof.
  apply (@setMultiple_reports_every_entry Payload roomy default_manager
           [batch_a; batch_c] (world_at 1000 [])).
  repeat constructor; vm_compute; discriminate.
Defined.

(** A cyclic payload between two good ones: [a] is written, [c] is not. *)
Lemma setMultiple_aborts_at_rejected_payload_example :
  let batch := @setMultiple Payload roomy default_manager
                 ([batch_a] ++ ("b", Cyclic, no_options) :: [batch_c])
                 (world_at 1000 []) in
  fst batch = Throw /\
  map fst (storage (snd batch)) = ["cosmos_connect_a"].
Proof.
  cbv zeta.
  destruct (@setMultiple_aborts_at_rejected_payload Payload roomy default_manager
              [batch_a] "b" Cyclic no_options [batch_c] (world_at 1000 []))
    as (Ht & Hs & _).
  - repeat constructor; vm_compute; discriminate.
  - reflexivity.
  - split; [exact Ht | rewrite Hs; compute_it].
Defined.

(** Migrating version 1.0 doubles the letters of both cache entries and
    keeps the [size] fields 12 and 22. *)
Lemma migrateCache_rewrites_old_version_example :
  storage (snd (@migrateCache Payload unlimited default_manager
                  [("1.0", double_letters)] (world_at 2000 mixed_store)))
  = [ ("cosmos_connect_apod_1", Entry (fresh_entry (Letters 20) 12 1000 3601000 10));
      ("app_theme", Text "dark");
      ("cosmos_connect_mars", Entry (fresh_entry (Letters 40) 22 1000 3601000 10)) ].
Proof.
  rewrite (@migrateCache_rewrites_old_version Payload unlimited default_manager
             "1.0" double_letters (world_at 2000 mixed_store)).
  - compute_it.
  - intros st k v. reflexivity.
  - keys_are_distinct.
Defined.

(** Data cached at time 1000 for one minute: served at 61000, not at 61001. *)
Lemma setCachedData_then_getCachedData_example :
  let written := snd (SimpleCache.setCachedData 1000 "apod_today" (Letters 5) empty_cache) in
  SimpleCache.getCachedData 61000 "apod_today" 1 written = Some (Letters 5) /\
  SimpleCache.getCachedData 61001 "apod_today" 1 written = None.
Proof.
  cbv zeta. split.
  - destruct (SimpleCacheFacts.setCachedData_then_getCachedData
                "apod_today" (Letters 5) 1000 61000 1 empty_cache) as [_ Hg];
      [compute_it | lia | rewrite Hg; compute_it].
  - compute_it.
Defined.

(** The spent limiter turns the call down with status 429. *)
Lemma makeRequest_refused_by_limiter_example :
  let result := @ApiService.makeRequest Payload payload_body
                  (call_at 500 (ApiService.Rejected "unused")) "/planetary/apod"
                  None 60 spent_service in
  ApiService.outcome result
  = ApiService.Failed {| ApiService.status := 429;
                         ApiService.message := ApiService.RateLimitExceeded 500;
                         ApiService.endpoint := "/planetary/apod" |} /\
  ApiService.fetch_called result = false.
Proof.
  cbv zeta.
  destruct (@ApiServiceFacts.makeRequest_refused_by_limiter Payload payload_body
              (call_at 500 (ApiService.Rejected "unused")) "/planetary/apod"
              None 60 spent_service) as (Ho & Hf & _).
  - compute_it.
  - compute_it.
  - split; [rewrite Ho; compute_it | exact Hf].
Defined.

(** A call whose [fetch] fails still spends a request. *)
Lemma makeRequest_allowed_spends_one_request_example :
  let result := @ApiService.makeRequest Payload payload_body
                  (call_at 500 (ApiService.Rejected "Failed to fetch")) "/planetary/apod"
                  None 60 fresh_service in
  ApiService.fetch_called result = true /\
  RateLimiter.requests (ApiService.limiter (ApiService.service result)) = [500].
Proof.
  cbv zeta.
  destruct (@ApiServiceFacts.makeRequest_allowed_spends_one_request Payload payload_body
              (call_at 500 (ApiService.Rejected "Failed to fetch")) "/planetary/apod"
              None 60 fresh_service) as (Hf & Hr & _).
  - compute_it.
  - compute_it.
  - compute_it.
  - split; [exact Hf | rewrite Hr; compute_it].
Defined.

(** A second call one minute later is served from the cache. *)
Lemma makeRequest_then_served_from_cache_example :
  let first := @ApiService.makeRequest Payload payload_body
                 (call_at 1000 (ApiService.Resolved ok_response)) "/planetary/apod"
                 (Some "apod_today") 60 fresh_service in
  let second := @ApiService.makeRequest Payload payload_body
                  (call_at 61000 (ApiService.Rejected "offline")) "/planetary/apod"
                  (Some "apod_today") 60 (ApiService.service first) in
  ApiService.outcome second = ApiService.Returned (Letters 5) /\
  ApiService.fetch_called second = false.
Proof.
  cbv zeta.
  destruct (@ApiServiceFacts.makeRequest_then_served_from_cache Payload payload_body
              (call_at 1000 (ApiService.Resolved ok_response))
              (call_at 61000 (ApiService.Rejected "offline"))
              "/planetary/apod" "apod_today" 60 (Letters 5) ok_response fresh_service)
    as (_ & Ho & Hf & _).
  - discriminate.
  - compute_it.
  - compute_it.
  - compute_it.
  - compute_it.
  - compute_it.
  - compute_it.
  - compute_it.
  - compute_it.
  - compute_it.
  - cbn. lia.
  - split; [exact Ho | exact Hf].
Defined.

End ExtraExamples.
